(** * run_config_yml_on_circle_ci.py: a shallow embedding

    The script triggers a CircleCI build with the local
    [.circleci/config.yml].  Its logic is two regular expressions and a
    straight line of calls to git, the circleci tool, the file system and
    one HTTP POST.

    - Strings are lists of characters ([list ascii]); bytes are
      [list byte].
    - [re.match] is embedded as a backtracking matcher that lists all the
      ways a pattern matches at the start of the input, in the order in
      which Python's engine tries them; [re.match] returns the first.
    - Everything outside the script (processes, files, the YAML and JSON
      libraries, the network) is an oracle of a [World]; the script runs in
      an exception monad that also records the trace of its interactions. *)

From Stdlib Require Import String Ascii List ZArith Lia Bool.
Import ListNotations.
Open Scope list_scope.
Set Warnings "-register-all".

(** ** Strings *)

Definition str := list ascii.
Definition bytes := list Byte.byte.

(** A string literal of the source. *)
Definition lit (s : string) : str := list_ascii_of_string s.

Definition newline : ascii := "010"%char.

Fixpoint str_eqb (a b : str) : bool :=
  match a, b with
  | [], [] => true
  | x :: a', y :: b' => Ascii.eqb x y && str_eqb a' b'
  | _, _ => false
  end.

(** [lacks c s]: the character [c] does not occur in [s]. *)
Definition lacks (c : ascii) (s : str) : bool :=
  forallb (fun a => negb (Ascii.eqb a c)) s.

Definition nonempty (s : str) : bool :=
  match s with [] => false | _ :: _ => true end.

(** [str.isspace] on the code points below 256. *)
Definition is_space (c : ascii) : bool :=
  let n := nat_of_ascii c in
  ((9 <=? n) && (n <=? 13) || (28 <=? n) && (n <=? 32)
   || (n =? 133) || (n =? 160))%nat.

Fixpoint lstrip (s : str) : str :=
  match s with
  | c :: s' => if is_space c then lstrip s' else s
  | [] => []
  end.

Definition rstrip (s : str) : str := rev (lstrip (rev s)).

(** [s.strip()] *)
Definition strip (s : str) : str := rstrip (lstrip s).

(** ** Regular expressions: the fragment of [re] the script uses *)

Module Re.

(** One-character items: [.], [[^c]] and a literal character.  The
    patterns are compiled without flags, so [.] is every character but
    the line feed. *)
Inductive cset :=
| Dot
| NotChar (c : ascii)
| Char (c : ascii).

Definition cset_mem (cs : cset) (a : ascii) : bool :=
  match cs with
  | Dot => negb (Ascii.eqb a newline)
  | NotChar c => negb (Ascii.eqb a c)
  | Char c => Ascii.eqb a c
  end.

Inductive regex :=
| One (cs : cset)                     (* x       *)
| Plus (cs : cset)                    (* x+      greedy *)
| Opt (r : regex)                     (* (r)?    greedy *)
| Seq (r1 r2 : regex)                 (* r1 r2   *)
| Group (name : string) (r : regex)   (* (?P<name>r) *)
| Bol                                 (* ^       *)
| Eol.                                (* $       *)

(** Named groups that took part in a match, latest first. *)
Definition caps := list (string * str).

(** One way of matching: the text consumed, the input left, the groups. *)
Definition mres := (str * str * caps)%type.

(** All the ways [x*] can consume a prefix of [s], longest first. *)
Fixpoint star (cs : cset) (s : str) : list (str * str) :=
  match s with
  | c :: s' =>
      if cset_mem cs c
      then map (fun p => (c :: fst p, snd p)) (star cs s') ++ [([], s)]
      else [([], s)]
  | [] => [([], [])]
  end.

(** The same for [x+]: at least one character. *)
Definition plus (cs : cset) (s : str) : list (str * str) :=
  match s with
  | c :: s' =>
      if cset_mem cs c
      then map (fun p => (c :: fst p, snd p)) (star cs s')
      else []
  | [] => []
  end.

(** What follows [r1] in a sequence, run on one way [m1] of matching
    [r1]. *)
Definition seq_k (k : nat -> str -> list mres) (pos : nat) (m1 : mres)
  : list mres :=
  let '(w1, s1, c1) := m1 in
  map (fun m2 : mres => let '(w2, s2, c2) := m2 in (w1 ++ w2, s2, c2 ++ c1))
      (k (pos + length w1) s1).

(** [ms r pos s]: all the ways [r] matches at offset [pos], where [s] is
    the input from [pos] on, in the order a backtracking engine tries
    them.  [$] matches at the end of the input and before a line feed
    that ends it. *)
Fixpoint ms (r : regex) (pos : nat) (s : str) : list mres :=
  match r with
  | One cs =>
      match s with
      | c :: s' => if cset_mem cs c then [([c], s', [])] else []
      | [] => []
      end
  | Plus cs => map (fun p => (fst p, snd p, [])) (plus cs s)
  | Opt r => ms r pos s ++ [([], s, [])]
  | Seq r1 r2 => flat_map (seq_k (ms r2) pos) (ms r1 pos s)
  | Group n r =>
      map (fun m : mres => let '(w, s', c) := m in (w, s', (n, w) :: c))
          (ms r pos s)
  | Bol => if Nat.eqb pos 0 then [([], s, [])] else []
  | Eol =>
      match s with
      | [] => [([], s, [])]
      | [c] => if Ascii.eqb c newline then [([], s, [])] else []
      | _ => []
      end
  end.

(** [re.match(r, s)]: the first way of matching at offset 0, or [None]. *)
Definition re_match (r : regex) (s : str) : option mres := hd_error (ms r 0 s).

(** [m.group(name)]: [None] for a group that took no part in the match. *)
Fixpoint lookup (c : caps) (n : string) : option str :=
  match c with
  | [] => None
  | (k, v) :: c' => if String.eqb k n then Some v else lookup c' n
  end.

Definition group (m : mres) (n : string) : option str := lookup (snd m) n.

(** The words of a pattern, without the order of the attempts: [lang r
    pos w rest] says that [r] matches the text [w] at offset [pos] when
    [rest] follows. *)
Definition in_cset (cs : cset) (c : ascii) : Prop := cset_mem cs c = true.

Fixpoint lang (r : regex) (pos : nat) (w rest : str) : Prop :=
  match r with
  | One cs => exists c, w = [c] /\ in_cset cs c
  | Plus cs => w <> [] /\ Forall (in_cset cs) w
  | Opt r => lang r pos w rest \/ w = []
  | Seq r1 r2 =>
      exists w1 w2, w = w1 ++ w2 /\ lang r1 pos w1 (w2 ++ rest)
                    /\ lang r2 (pos + length w1) w2 rest
  | Group _ r => lang r pos w rest
  | Bol => w = [] /\ pos = 0
  | Eol => w = [] /\ (rest = [] \/ rest = [newline])
  end.

End Re.

Import Re.

(** ** The two patterns of the script *)

(** [.git?$], the end of the URL pattern: any character, [g], [i], an
    optional [t], the end. *)
Definition suffix_re : regex :=
  Seq (One Dot)
 (Seq (One (Char "g"))
 (Seq (One (Char "i"))
 (Seq (Opt (One (Char "t")))
      Eol))).

(** The pattern of [parse_url_to_remote_info],
    [^((?P<user>[^@]+)@)?(?P<hostname>[^:]+):(?P<organization>[^/]+)/(?P<repo_name>.+).git?$].
    The group around [user@] has no name and is not looked at, so it is
    left out. *)
Definition url_re : regex :=
  Seq Bol
 (Seq (Opt (Seq (Group "user" (Plus (NotChar "@"))) (One (Char "@"))))
 (Seq (Group "hostname" (Plus (NotChar ":")))
 (Seq (One (Char ":"))
 (Seq (Group "organization" (Plus (NotChar "/")))
 (Seq (One (Char "/"))
 (Seq (Group "repo_name" (Plus Dot))
      suffix_re)))))).

(** The pattern of [main],
    [^(?P<remote_name>[^/]+)/(?P<remote_branch_name>[^/]+)$]. *)
Definition branch_re : regex :=
  Seq Bol
 (Seq (Group "remote_name" (Plus (NotChar "/")))
 (Seq (One (Char "/"))
 (Seq (Group "remote_branch_name" (Plus (NotChar "/")))
      Eol))).

(** ** Values, exceptions and parse_url_to_remote_info *)

(** The exceptions the script can die of. *)
Inductive exn :=
| Exception (msg : str)               (* raise Exception(msg) *)
| CalledProcessError (returncode : Z) (* check=True, status not 0 *)
| OSError                             (* a file or a program is missing *)
| UnicodeDecodeError
| YAMLError                           (* yaml.load raised *)
| KeyError
| TypeError
| RequestException                    (* requests.post gave no response *)
| JSONDecodeError                     (* response.json() *)
| HTTPError (status : Z).             (* response.raise_for_status() *)

(** [RemoteInfo = namedtuple('RemoteInfo', ['service', 'organization',
    'repo_name'])]; the last two fields hold what [match.group] returns,
    which is [None] for a group that did not take part. *)
Record RemoteInfo := mkRemoteInfo {
  service : str;
  organization : option str;
  repo_name : option str
}.

Definition opt_str_eqb (o : option str) (s : str) : bool :=
  match o with Some v => str_eqb v s | None => false end.

Definition parse_url_to_remote_info (url : str) : exn + RemoteInfo :=
  match re_match url_re url with
  | Some m =>
      if negb (opt_str_eqb (group m "hostname") (lit "github.com"))
      then inl (Exception (lit "Could not parse remote URL " ++ url))
      else inr (mkRemoteInfo (lit "github")
                             (group m "organization") (group m "repo_name"))
  | None => inl (Exception (lit "Could not parse remote URL " ++ url))
  end.

(** The exception it raises on [url]. *)
Definition parse_failure (url : str) : exn :=
  Exception (lit "Could not parse remote URL " ++ url).

(** ** The world outside the script *)

(** Python values that come back from the YAML and JSON libraries.  A
    mapping keeps its string keys, the only ones the script looks up. *)
Inductive pyval :=
| PNone
| PBool (b : bool)
| PInt (z : Z)
| PFloat (repr : str)
| PStr (s : str)
| PList (l : list pyval)
| PDict (items : list (str * pyval)).

(** What [subprocess.run] finds: the program could not be started, or it
    ran to an exit status with some standard output. *)
Inductive proc_result :=
| NotStarted
| Exited (returncode : Z) (stdout : bytes).

(** A value of the [data] dictionary of [requests.post]. *)
Inductive formval :=
| FStr (s : str)
| FBytes (b : bytes).

(** The arguments of [requests.post(url, auth=..., data=...)]. *)
Record request := mkRequest {
  rq_url : str;
  rq_auth : pyval * str;
  rq_data : list (str * formval)
}.

(** A [requests.Response]: its status and what [.json()] returns, [None]
    when the body is not JSON. *)
Record response := mkResponse {
  status_code : Z;
  json : option pyval
}.

Record World := mkWorld {
  (** [subprocess.run(args, cwd=...)] *)
  subprocess_run : list str -> option str -> proc_result;
  (** [bytes.decode('utf-8')], [None] when it raises *)
  decode_utf8 : bytes -> option str;
  (** [os.path.expanduser] *)
  expanduser : str -> str;
  (** [open(path, 'rb').read()], [None] when the file cannot be read *)
  read_file : str -> option bytes;
  (** [yaml.load], [None] when it raises: on a file that is not YAML,
      and, from PyYAML 6 on, on every call without a loader *)
  yaml_load : bytes -> option pyval;
  (** [requests.post], [None] when no response arrives *)
  requests_post : request -> option response;
  (** [str(v)] of a value that is not a string *)
  py_repr : pyval -> str
}.

(** What an observer of a run sees. *)
Inductive event :=
| ERun (args : list str) (cwd : option str) (piped : bool) (r : proc_result)
| ERead (path : str) (content : option bytes)
| EPost (rq : request) (resp : option response)
| EPrint (line : str).

Definition trace := list event.

(** ** The monad of the script: exceptions and a trace *)

Definition M (A : Type) : Type := ((exn + A) * trace)%type.

Definition ret {A} (a : A) : M A := (inr a, []).
Definition raise {A} (e : exn) : M A := (inl e, []).
Definition emit (ev : event) : M unit := (inr tt, [ev]).
Definition lift {A} (r : exn + A) : M A := (r, []).

Definition bind {A B} (m : M A) (f : A -> M B) : M B :=
  match m with
  | (inl e, t) => (inl e, t)
  | (inr a, t) => let '(r, t') := f a in (r, t ++ t')
  end.

Notation "x <- m ;; k" := (bind m (fun x => k))
  (at level 61, m at next level, right associativity).
Notation "m ;;; k" := (bind m (fun _ => k))
  (at level 61, right associativity).

(** The POST requests and the printed lines of a trace. *)
Definition posts (t : trace) : list (request * option response) :=
  flat_map (fun ev => match ev with EPost rq r => [(rq, r)] | _ => [] end) t.

Definition printed (t : trace) : list str :=
  flat_map (fun ev => match ev with EPrint l => [l] | _ => [] end) t.

(** A trace without a POST and without a printed line. *)
Definition quiet (t : trace) : Prop := posts t = [] /\ printed t = [].

(** ** The functions of the script *)

Section Script.

Variable w : World.

(** [subprocess.run(args, cwd=cwd, check=True)], on arguments that it
    takes at all: at least one, none with a NUL character. *)
Definition run_checked (args : list str) (cwd : option str) (piped : bool)
  : M bytes :=
  let r := subprocess_run w args cwd in
  emit (ERun args cwd piped r) ;;;
  match r with
  | NotStarted => raise OSError
  | Exited rc out => if (rc =? 0)%Z then ret out
                     else raise (CalledProcessError rc)
  end.

Definition execute (args : list str) : M str :=
  out <- run_checked args None true ;;
  match decode_utf8 w out with
  | Some s => ret (strip s)
  | None => raise UnicodeDecodeError
  end.

Definition cmd_upstream : list str :=
  [lit "git"; lit "rev-parse"; lit "--abbrev-ref";
   lit "--symbolic-full-name"; lit "@{upstream}"].

Definition get_remote_tracking_branch : M str := execute cmd_upstream.

Definition cmd_get_url (remote_name : str) : list str :=
  [lit "git"; lit "remote"; lit "get-url"; lit "--push"; remote_name].

(** The argument is what [match.group] returned; [subprocess.run] raises
    [TypeError] on an argument that is [None]. *)
Definition get_url_for_remote (remote_name : option str) : M str :=
  match remote_name with
  | Some n => execute (cmd_get_url n)
  | None => raise TypeError
  end.

Definition cmd_head : list str := [lit "git"; lit "rev-parse"; lit "HEAD"].

Definition get_current_commit : M str := execute cmd_head.

(** [os.path.join(a, b)] *)
Definition path_join (a b : str) : str :=
  match b with
  | "/"%char :: _ => b
  | _ => match rev a with
         | [] => b
         | "/"%char :: _ => a ++ b
         | _ => a ++ "/"%char :: b
         end
  end.

Definition open_read (path : str) : M bytes :=
  let c := read_file w path in
  emit (ERead path c) ;;;
  match c with
  | Some b => ret b
  | None => raise OSError
  end.

Definition get_config_yml (top_dir : str) : M bytes :=
  open_read (path_join top_dir (lit ".circleci/config.yml")).

(** [v[key]] for a string [key] *)
Fixpoint assoc (key : str) (items : list (str * pyval)) : option pyval :=
  match items with
  | [] => None
  | (k, v) :: items' => if str_eqb k key then Some v else assoc key items'
  end.

Definition getitem (v : pyval) (key : str) : exn + pyval :=
  match v with
  | PDict items =>
      match assoc key items with
      | Some x => inr x
      | None => inl KeyError
      end
  | _ => inl TypeError
  end.

Definition get_auth_token : M pyval :=
  let circle_ci_cli_config := expanduser w (lit "~/.circleci/cli.yml") in
  config <- open_read circle_ci_cli_config ;;
  match yaml_load w config with
  | Some config_yaml => lift (getitem config_yaml (lit "token"))
  | None => raise YAMLError
  end.

(** [str(v)], as [str.format] and [print] apply it *)
Definition py_str (v : pyval) : str :=
  match v with
  | PStr s => s
  | _ => py_repr w v
  end.

Definition fmt (o : option str) : str :=
  match o with
  | Some s => s
  | None => lit "None"
  end.

(** ['https://circleci.com/api/v1.1/project/{service}/{organization}/{repo_name}/tree/{branch_name}'.format(...)] *)
Definition format_url (remote_info : RemoteInfo) (branch_name : option str)
  : str :=
  lit "https://circleci.com/api/v1.1/project/" ++ service remote_info
  ++ lit "/" ++ fmt (organization remote_info)
  ++ lit "/" ++ fmt (repo_name remote_info)
  ++ lit "/tree/" ++ fmt branch_name.

Definition post (rq : request) : M response :=
  let r := requests_post w rq in
  emit (EPost rq r) ;;;
  match r with
  | Some resp => ret resp
  | None => raise RequestException
  end.

(** [response.json()] *)
Definition response_json (resp : response) : M pyval :=
  match json resp with
  | Some v => ret v
  | None => raise JSONDecodeError
  end.

(** [response.raise_for_status()]: requests raises [HTTPError] for the
    client errors 400..499 and the server errors 500..599. *)
Definition raise_for_status (resp : response) : M unit :=
  let s := status_code resp in
  if ((400 <=? s) && (s <? 600))%Z then raise (HTTPError s) else ret tt.

(** [print(a, b)]: one line, the arguments separated by a space.  A text
    that standard output cannot encode makes [print] raise instead; that
    is not modelled, and what is proved about a printed line is about a
    line of ASCII characters or about what comes before the line. *)
Definition print2 (a b : pyval) : M unit :=
  emit (EPrint (py_str a ++ lit " " ++ py_str b)).

Definition cmd_toplevel : list str :=
  [lit "git"; lit "rev-parse"; lit "--show-toplevel"].

Definition cmd_validate : list str :=
  [lit "circleci"; lit "config"; lit "validate"].

Definition main : M unit :=
  top_dir <- execute cmd_toplevel ;;
  run_checked cmd_validate (Some top_dir) false ;;;
  config_yml_string <- get_config_yml top_dir ;;
  remote_tracking_branch <- get_remote_tracking_branch ;;
  match re_match branch_re remote_tracking_branch with
  | None =>
      raise (Exception (lit "Cannot parse remote tracking branch "
                        ++ remote_tracking_branch))
  | Some m =>
      let remote_branch_name := group m "remote_branch_name" in
      remote_url <- get_url_for_remote (group m "remote_name") ;;
      remote_info <- lift (parse_url_to_remote_info remote_url) ;;
      revision <- get_current_commit ;;
      auth_token <- get_auth_token ;;
      let url := format_url remote_info remote_branch_name in
      response <- post (mkRequest url (auth_token, [])
                          [(lit "revision", FStr revision);
                           (lit "notify", FStr (lit "false"));
                           (lit "config", FBytes config_yml_string)]) ;;
      response_data <- response_json response ;;
      raise_for_status response ;;;
      build_url <- lift (getitem response_data (lit "build_url")) ;;
      print2 (PStr (lit "Build triggered as")) build_url
  end.

(** [if __name__ == "__main__": exit(main())]: [main] returns [None], so
    the status is 0; an exception that nobody catches ends the
    interpreter with status 1. *)
Definition script : Z * trace :=
  match main with
  | (inr _, t) => (0%Z, t)
  | (inl _, t) => (1%Z, t)
  end.

(** *** The two halves of [main], for the proofs

    [prepare_request] is [main] up to the arguments of [requests.post];
    [conclude] is [main] from the response on.  [main_split] below shows
    that [main] is the first, the POST, then the second. *)
Definition prepare_request : M request :=
  top_dir <- execute cmd_toplevel ;;
  run_checked cmd_validate (Some top_dir) false ;;;
  config_yml_string <- get_config_yml top_dir ;;
  remote_tracking_branch <- get_remote_tracking_branch ;;
  match re_match branch_re remote_tracking_branch with
  | None =>
      raise (Exception (lit "Cannot parse remote tracking branch "
                        ++ remote_tracking_branch))
  | Some m =>
      let remote_branch_name := group m "remote_branch_name" in
      remote_url <- get_url_for_remote (group m "remote_name") ;;
      remote_info <- lift (parse_url_to_remote_info remote_url) ;;
      revision <- get_current_commit ;;
      auth_token <- get_auth_token ;;
      ret (mkRequest (format_url remote_info remote_branch_name)
                     (auth_token, [])
                     [(lit "revision", FStr revision);
                      (lit "notify", FStr (lit "false"));
                      (lit "config", FBytes config_yml_string)])
  end.

Definition conclude (resp : response) : M unit :=
  response_data <- response_json resp ;;
  raise_for_status resp ;;;
  build_url <- lift (getitem response_data (lit "build_url")) ;;
  print2 (PStr (lit "Build triggered as")) build_url.

(** What [conclude] comes to, case by case: the body first, the status
    second, the build URL last. *)
Definition conclusion (resp : response) : M unit :=
  match json resp with
  | None => (inl JSONDecodeError, [])
  | Some d =>
      if ((400 <=? status_code resp) && (status_code resp <? 600))%Z
      then (inl (HTTPError (status_code resp)), [])
      else match getitem d (lit "build_url") with
           | inl e => (inl e, [])
           | inr v => (inr tt, [EPrint (lit "Build triggered as "
                                        ++ py_str v)])
           end
  end.

End Script.

(** ** Shapes of inputs, as the claims word them *)

(** [split_first c s]: the text before and after the first [c] of [s]. *)
Fixpoint split_first (c : ascii) (s : str) : option (str * str) :=
  match s with
  | [] => None
  | a :: s' =>
      if Ascii.eqb a c then Some ([], s')
      else match split_first c s' with
           | Some (x, y) => Some (a :: x, y)
           | None => None
           end
  end.

(** [remote/branch]: one slash between two non-empty parts without a
    slash. *)
Definition remote_branch_shape (s : str) : bool :=
  match split_first "/" s with
  | Some (a, b) => nonempty a && nonempty b && lacks "/" b
  | None => false
  end.

(** The text ends in some character followed by [gi] or [git]. *)
Definition git_suffixed (s : str) : bool :=
  match rev s with
  | "i"%char :: "g"%char :: _ :: _ => true
  | "t"%char :: "i"%char :: "g"%char :: _ :: _ => true
  | _ => false
  end.

(** [git@github.com:org/repo] *)
Definition ssh_url (org repo : str) : str :=
  lit "git@github.com:" ++ org ++ "/"%char :: repo.

(** [user@host:org/repo] *)
Definition scp_url (user host org repo : str) : str :=
  user ++ "@"%char :: host ++ ":"%char :: org ++ "/"%char :: repo.

(** ** A world to run the script in *)

Definition to_bytes (s : str) : bytes := map byte_of_ascii s.
Definition of_bytes (b : bytes) : str := map ascii_of_byte b.

Fixpoint args_eqb (a b : list str) : bool :=
  match a, b with
  | [], [] => true
  | x :: a', y :: b' => str_eqb x y && args_eqb a' b'
  | _, _ => false
  end.

Definition line (s : string) : bytes := to_bytes (lit s ++ [newline]).

(** A checkout in [/home/dev/widgets] whose validator exits with
    [validate_rc], whose upstream is [branch], whose remote [origin] has
    the push URL [url], and a server that answers [resp]. *)
Definition sample_world (validate_rc : Z) (branch url : str)
  (resp : option response) : World :=
  mkWorld
    (fun args cwd =>
       if args_eqb args cmd_toplevel then Exited 0 (line "/home/dev/widgets")
       else if args_eqb args cmd_validate then Exited validate_rc []
       else if args_eqb args cmd_upstream
            then Exited 0 (to_bytes (branch ++ [newline]))
       else if args_eqb args (cmd_get_url (lit "origin"))
            then Exited 0 (to_bytes (url ++ [newline]))
       else if args_eqb args cmd_head then Exited 0 (line "4f2a9c1")
       else NotStarted)
    (fun b => Some (of_bytes b))
    (fun p => match p with
              | "~"%char :: p' => lit "/home/dev" ++ p'
              | _ => p
              end)
    (fun p => if str_eqb p (lit "/home/dev/widgets/.circleci/config.yml")
              then Some (line "version: 2")
              else if str_eqb p (lit "/home/dev/.circleci/cli.yml")
              then Some (line "token: s3cret")
              else None)
    (fun b => Some (PDict [(lit "token", PStr (lit "s3cret"))]))
    (fun _ => resp)
    (fun _ => lit "<value>").

Definition build_url_body : pyval :=
  PDict [(lit "build_url", PStr (lit "https://circleci.com/gh/org/repo/123"))].

Definition acme_world (status : Z) (body : option pyval) : World :=
  sample_world 0 (lit "origin/feature-x")
               (lit "git@github.com:acme/widgets.git")
               (Some (mkResponse status body)).

Definition acme_request : request :=
  mkRequest
    (lit "https://circleci.com/api/v1.1/project/github/acme/widgets/tree/feature-x")
    (PStr (lit "s3cret"), [])
    [(lit "revision", FStr (lit "4f2a9c1"));
     (lit "notify", FStr (lit "false"));
     (lit "config", FBytes (line "version: 2"))].

Definition login_required_body : pyval :=
  PDict [(lit "message", PStr (lit "You must log in first."))].

(** The server starts the build. *)
Definition world_built : World := acme_world 201 (Some build_url_body).

(** The token is refused. *)
Definition world_unauthorized : World :=
  acme_world 401 (Some login_required_body).

(** A status that is neither a success nor an error. *)
Definition world_multiple_choices : World :=
  acme_world 300 (Some build_url_body).


(** The validator rejects the config file. *)
Definition world_invalid_config : World :=
  sample_world 1 (lit "origin/feature-x")
               (lit "git@github.com:acme/widgets.git") None.

(** The upstream of the branch is the local branch [master]. *)
Definition world_local_upstream : World :=
  sample_world 0 (lit "master")
               (lit "git@github.com:acme/widgets.git") None.

Definition gitlab_url : str := lit "git@gitlab.com:acme/widgets.git".

(** A repository name with a line feed in it. *)
Definition broken_name : str := lit "re" ++ newline :: lit "po".

(** ** More shapes, for the properties beyond the claims *)

(** The words of a pattern together with the groups they set: as
    [lang], with the groups of a match in the last argument. *)
Fixpoint lang_caps (r : regex) (pos : nat) (w rest : str) (c : caps) : Prop :=
  match r with
  | One cs => (exists a, w = [a] /\ in_cset cs a) /\ c = []
  | Plus cs => (w <> [] /\ Forall (in_cset cs) w) /\ c = []
  | Opt r => lang_caps r pos w rest c \/ (w = [] /\ c = [])
  | Seq r1 r2 =>
      exists w1 w2 c1 c2,
        w = w1 ++ w2 /\ c = c2 ++ c1
        /\ lang_caps r1 pos w1 (w2 ++ rest) c1
        /\ lang_caps r2 (pos + length w1) w2 rest c2
  | Group n r => exists c', c = (n, w) :: c' /\ lang_caps r pos w rest c'
  | Bol => (w = [] /\ pos = 0) /\ c = []
  | Eol => (w = [] /\ (rest = [] \/ rest = [newline])) /\ c = []
  end.

(** What may follow [gi] at the end of a URL that the pattern accepts:
    nothing, [t], a line feed, or [t] and a line feed. *)
Definition url_tail (tail : str) : Prop :=
  tail = [] \/ tail = ["t"%char] \/ tail = [newline]
  \/ tail = ["t"%char; newline].

(** A text that neither starts nor ends with white space. *)
Definition trimmed (s : str) : bool :=
  match s with [] => true | c :: _ => negb (is_space c) end
  && match rev s with [] => true | c :: _ => negb (is_space c) end.

(** The URL the build is triggered at. *)
Definition project_url (org repo branch : str) : str :=
  lit "https://circleci.com/api/v1.1/project/github/" ++ org
  ++ lit "/" ++ repo ++ lit "/tree/" ++ branch.

(** The request [main] makes for a project, a branch, a commit, a token
    and a config file. *)
Definition trigger_request (org repo branch rev : str) (tok : pyval)
  (cfg : bytes) : request :=
  mkRequest (project_url org repo branch) (tok, [])
            [(lit "revision", FStr rev);
             (lit "notify", FStr (lit "false"));
             (lit "config", FBytes cfg)].

(** What a run has done when [main] comes to the POST: the seven calls in
    the order of the source, for the top directory [top] and the remote
    [remote]. *)
Definition prepare_trace (w : World) (top remote : str) : trace :=
  [ERun cmd_toplevel None true (subprocess_run w cmd_toplevel None);
   ERun cmd_validate (Some top) false
        (subprocess_run w cmd_validate (Some top));
   ERead (path_join top (lit ".circleci/config.yml"))
         (read_file w (path_join top (lit ".circleci/config.yml")));
   ERun cmd_upstream None true (subprocess_run w cmd_upstream None);
   ERun (cmd_get_url remote) None true
        (subprocess_run w (cmd_get_url remote) None);
   ERun cmd_head None true (subprocess_run w cmd_head None);
   ERead (expanduser w (lit "~/.circleci/cli.yml"))
         (read_file w (expanduser w (lit "~/.circleci/cli.yml")))].

(** The CLI config file holds a mapping without [token]. *)
Definition world_no_token : World :=
  mkWorld (subprocess_run world_built) (decode_utf8 world_built)
          (expanduser world_built) (read_file world_built)
          (fun _ => Some (PDict [(lit "host", PStr (lit "circleci.com"))]))
          (requests_post world_built) (py_repr world_built).

(** The network is down. *)
Definition world_offline : World :=
  sample_world 0 (lit "origin/feature-x")
               (lit "git@github.com:acme/widgets.git") None.

(** The server answers 200 with a body that has no [build_url]. *)
Definition world_no_build_url : World :=
  acme_world 200 (Some login_required_body).

(** Another checkout: a release branch, a deploy user, a repository in a
    group. *)
Definition world_release : World :=
  sample_world 0 (lit "origin/release-2.0")
               (lit "deploy@github.com:tools/ci/runner.git")
               (Some (mkResponse 201 (Some build_url_body))).

(** The remote is on another hosting service. *)
Definition world_gitlab : World :=
  sample_world 0 (lit "origin/feature-x") gitlab_url None.



(** A text of ASCII characters: every output encoding can write it. *)
Definition ascii_only (s : str) : bool :=
  forallb (fun c => (nat_of_ascii c <? 128)%nat) s.


(** * Theorems *)

(** ** The definitions on a few inputs *)

Section Examples.

Example strip_stdout :
  strip (lit "  origin/feature-x " ++ [newline]) = lit "origin/feature-x".
Proof. reflexivity. Qed.

Example path_join_plain :
  path_join (lit "/home/dev/widgets") (lit ".circleci/config.yml")
  = lit "/home/dev/widgets/.circleci/config.yml".
Proof. reflexivity. Qed.

Example path_join_slash :
  path_join (lit "/") (lit ".circleci/config.yml")
  = lit "/.circleci/config.yml".
Proof. reflexivity. Qed.

Example url_groups :
  option_map snd (re_match url_re (lit "git@github.com:acme/widgets.git"))
  = Some [("repo_name", lit "widgets"); ("organization", lit "acme");
          ("hostname", lit "github.com"); ("user", lit "git")]%string.
Proof. reflexivity. Qed.

(** Without [user@] the group [user] takes no part. *)
Example url_without_user :
  option_map snd (re_match url_re (lit "github.com:acme/wid/gets.git.git"))
  = Some [("repo_name", lit "wid/gets.git"); ("organization", lit "acme");
          ("hostname", lit "github.com")]%string.
Proof. reflexivity. Qed.

(** The host is what lies between the first [@] and the next [:]. *)
Example url_two_ats :
  option_map (fun m => group m "hostname")
             (re_match url_re (lit "a@b@github.com:acme/widgets.git"))
  = Some (Some (lit "b@github.com")).
Proof. reflexivity. Qed.

(** [$] also matches before a line feed that ends the input. *)
Example url_last_line_feed :
  option_map (fun m => group m "repo_name")
             (re_match url_re (lit "git@github.com:org/a.git" ++ [newline]))
  = Some (Some (lit "a")).
Proof. reflexivity. Qed.

Example url_too_short :
  re_match url_re (lit "git@github.com:org/xgit") = None.
Proof. reflexivity. Qed.

Example branch_groups :
  option_map snd (re_match branch_re (lit "origin/feature-x"))
  = Some [("remote_branch_name", lit "feature-x");
          ("remote_name", lit "origin")]%string.
Proof. reflexivity. Qed.

Example branch_two_slashes : re_match branch_re (lit "a/b/c") = None.
Proof. reflexivity. Qed.

Example branch_last_line_feed :
  option_map (fun m => group m "remote_branch_name")
             (re_match branch_re (lit "a/b" ++ [newline]))
  = Some (Some (lit "b" ++ [newline])).
Proof. reflexivity. Qed.

Example run_built :
  fst (main world_built) = inr tt /\
  printed (snd (main world_built))
  = [lit "Build triggered as https://circleci.com/gh/org/repo/123"] /\
  posts (snd (main world_built))
  = [(acme_request, Some (mkResponse 201 (Some build_url_body)))].
Proof. repeat split; vm_compute; reflexivity. Qed.

End Examples.

(** ** The matcher against the words of a pattern *)

Section Matcher.

Lemma star_sound cs s w rest :
  In (w, rest) (star cs s) -> s = w ++ rest /\ Forall (in_cset cs) w.
Proof.
  revert w rest; induction s as [|c s IH]; intros w rest; simpl.
  - intros [H|[]]; inversion H; subst; auto.
  - destruct (cset_mem cs c) eqn:E.
    + rewrite in_app_iff, in_map_iff.
      intros [[[w' r'] [H Hin]]|[H|[]]]; inversion H; subst; clear H;
        simpl; auto.
      destruct (IH _ _ Hin) as [-> Hf]. split; auto.
    + intros [H|[]]; inversion H; subst; auto.
Qed.

Lemma star_complete cs w rest :
  Forall (in_cset cs) w -> In (w, rest) (star cs (w ++ rest)).
Proof.
  induction 1 as [|c w Hc Hw IH]; simpl.
  - destruct rest as [|c r]; simpl; auto.
    destruct (cset_mem cs c); [apply in_or_app; right|]; simpl; auto.
  - unfold in_cset in Hc; rewrite Hc. apply in_or_app; left.
    apply in_map_iff. exists (w, rest); auto.
Qed.

Lemma plus_sound cs s w rest :
  In (w, rest) (plus cs s) ->
  s = w ++ rest /\ w <> [] /\ Forall (in_cset cs) w.
Proof.
  destruct s as [|c s]; simpl; [intros []|].
  destruct (cset_mem cs c) eqn:E; [|intros []].
  rewrite in_map_iff. intros [[w' r'] [H Hin]]. inversion H; subst; clear H.
  destruct (star_sound _ _ _ _ Hin) as [-> Hf]. simpl.
  repeat split; auto; discriminate.
Qed.

Lemma plus_complete cs w rest :
  w <> [] -> Forall (in_cset cs) w -> In (w, rest) (plus cs (w ++ rest)).
Proof.
  intros Hne Hf. destruct Hf as [|c w Hc Hw]; [congruence|]. simpl.
  unfold in_cset in Hc; rewrite Hc.
  apply in_map_iff. exists (w, rest). split; auto. now apply star_complete.
Qed.

(** Every way the matcher finds is a word of the pattern. *)
Theorem ms_sound r : forall pos s w rest c,
  In (w, rest, c) (ms r pos s) -> s = w ++ rest /\ lang r pos w rest.
Proof.
  induction r as [cs|cs|r IH|r1 IH1 r2 IH2|n r IH| |];
    intros pos s w rest c; simpl.
  - destruct s as [|a s]; [intros []|].
    destruct (cset_mem cs a) eqn:E; [|intros []].
    intros [H|[]]; inversion H; subst. split; eauto.
  - rewrite in_map_iff. intros [[w' r'] [H Hin]]. inversion H; subst; clear H.
    apply plus_sound in Hin. simpl. tauto.
  - rewrite in_app_iff. intros [H|[H|[]]].
    + apply IH in H. tauto.
    + inversion H; subst. auto.
  - rewrite in_flat_map. intros [[[w1 s1] c1] [H1 H2]].
    unfold seq_k in H2. rewrite in_map_iff in H2.
    destruct H2 as [[[w2 s2] c2] [H Hin]].
    inversion H; subst; clear H.
    apply IH1 in H1. apply IH2 in Hin. destruct H1 as [-> L1], Hin as [-> L2].
    split; [now rewrite app_assoc|]. eauto.
  - rewrite in_map_iff. intros [[[w' s'] c'] [H Hin]].
    inversion H; subst; clear H. eauto.
  - destruct (Nat.eqb_spec pos 0); [|intros []].
    intros [H|[]]; inversion H; subst; auto.
  - destruct s as [|a [|b s]].
    + intros [H|[]]; inversion H; subst; auto.
    + destruct (Ascii.eqb_spec a newline); [|intros []].
      intros [H|[]]; inversion H; subst; auto.
    + intros [].
Qed.

(** Every word of the pattern is found by the matcher. *)
Theorem ms_complete r : forall pos w rest,
  lang r pos w rest -> exists c, In (w, rest, c) (ms r pos (w ++ rest)).
Proof.
  induction r as [cs|cs|r IH|r1 IH1 r2 IH2|n r IH| |];
    intros pos w rest; simpl.
  - intros [a [-> Ha]]. simpl. unfold in_cset in Ha. rewrite Ha.
    eexists; simpl; eauto.
  - intros [Hne Hf]. exists []. apply in_map_iff.
    exists (w, rest). split; auto. now apply plus_complete.
  - intros [H| ->].
    + destruct (IH _ _ _ H) as [c Hc]. exists c. apply in_or_app; auto.
    + exists []. apply in_or_app; right; simpl; auto.
  - intros [w1 [w2 [-> [L1 L2]]]].
    destruct (IH1 _ _ _ L1) as [c1 H1]. destruct (IH2 _ _ _ L2) as [c2 H2].
    exists (c2 ++ c1). rewrite <- app_assoc. apply in_flat_map.
    exists (w1, w2 ++ rest, c1). split; auto.
    unfold seq_k. apply in_map_iff. exists (w2, rest, c2). auto.
  - intros H. destruct (IH _ _ _ H) as [c Hc]. exists ((n, w) :: c).
    apply in_map_iff. exists (w, rest, c). auto.
  - intros [-> ->]. simpl. eauto.
  - intros [-> [-> | ->]]; simpl; eauto.
Qed.

(** [re.match] answers exactly when the input starts with a word. *)
Corollary re_match_Some r s m :
  re_match r s = Some m ->
  exists w rest c, m = (w, rest, c) /\ s = w ++ rest /\ lang r 0 w rest.
Proof.
  unfold re_match. destruct (ms r 0 s) as [|[[w rest] c] l] eqn:E;
    [discriminate|].
  simpl. intros H; inversion H; subst. exists w, rest, c.
  destruct (ms_sound r 0 s w rest c) as [? ?]; [rewrite E; now left|]. auto.
Qed.

Corollary re_match_None r w rest :
  lang r 0 w rest -> re_match r (w ++ rest) <> None.
Proof.
  intros L. destruct (ms_complete r 0 w rest L) as [c Hc].
  unfold re_match. destruct (ms r 0 (w ++ rest)); [destruct Hc|discriminate].
Qed.

(** The greedy order: [x+] first takes all it can. *)
Lemma star_app cs w s :
  Forall (in_cset cs) w ->
  exists tl,
    star cs (w ++ s) = map (fun p => (w ++ fst p, snd p)) (star cs s) ++ tl.
Proof.
  induction 1 as [|c w Hc Hw [tl IH]]; simpl.
  - exists []. rewrite app_nil_r. rewrite <- (map_id (star cs s)) at 1.
    apply map_ext. now intros [a b].
  - unfold in_cset in Hc; rewrite Hc. rewrite IH, map_app, map_map. simpl.
    rewrite <- app_assoc. eauto.
Qed.

Lemma plus_app cs w s :
  w <> [] -> Forall (in_cset cs) w ->
  exists tl,
    plus cs (w ++ s) = map (fun p => (w ++ fst p, snd p)) (star cs s) ++ tl.
Proof.
  intros Hne Hf. destruct Hf as [|c w Hc Hw]; [congruence|]. simpl.
  unfold in_cset in Hc; rewrite Hc.
  destruct (star_app cs w s Hw) as [tl ->].
  rewrite map_app, map_map. simpl. eauto.
Qed.

Lemma plus_upto cs w c s :
  w <> [] -> Forall (in_cset cs) w -> cset_mem cs c = false ->
  exists tl, plus cs (w ++ c :: s) = (w, c :: s) :: tl.
Proof.
  intros Hne Hf Hc. destruct (plus_app cs w (c :: s) Hne Hf) as [tl ->].
  simpl. rewrite Hc. simpl. rewrite app_nil_r. eauto.
Qed.

Lemma first_hit {A B} (f : A -> list B) x l y :
  hd_error (f x) = Some y -> hd_error (flat_map f (x :: l)) = Some y.
Proof. simpl. destruct (f x); simpl; congruence. Qed.

(** When the first way of [r1] lets [r2] go through, the sequence takes
    it. *)
Lemma seq_first r1 r2 pos s w1 s1 c1 tl w2 s2 c2 :
  ms r1 pos s = (w1, s1, c1) :: tl ->
  hd_error (ms r2 (pos + length w1) s1) = Some (w2, s2, c2) ->
  hd_error (ms (Seq r1 r2) pos s) = Some (w1 ++ w2, s2, c2 ++ c1).
Proof.
  intros H1 H2. cbn [ms]. rewrite H1. apply first_hit. simpl.
  destruct (ms r2 _ s1) as [|[[? ?] ?] ?]; simpl in *; congruence.
Qed.

End Matcher.

(** ** Characters that a text lacks *)

Section Lacks.

Lemma lacks_Forall c s : lacks c s = true -> Forall (in_cset (NotChar c)) s.
Proof.
  unfold lacks. rewrite forallb_forall, Forall_forall. auto.
Qed.

Lemma Forall_lacks c s : Forall (in_cset (NotChar c)) s -> lacks c s = true.
Proof.
  unfold lacks. rewrite forallb_forall, Forall_forall. auto.
Qed.

Lemma lacks_newline_Forall s : lacks newline s = true -> Forall (in_cset Dot) s.
Proof. exact (lacks_Forall newline s). Qed.

Lemma Forall_lacks_newline s : Forall (in_cset Dot) s -> lacks newline s = true.
Proof. exact (Forall_lacks newline s). Qed.

Lemma nonempty_neq s : nonempty s = true -> s <> [].
Proof. destruct s; simpl; congruence. Qed.

Lemma neq_nonempty s : s <> [] -> nonempty s = true.
Proof. destruct s; simpl; congruence. Qed.

Lemma lacks_app c a b : lacks c (a ++ b) = lacks c a && lacks c b.
Proof. apply forallb_app. Qed.

(** A text is cut at the first occurrence of a character in one way. *)
Lemma split_unique c a b x y :
  lacks c a = true -> lacks c b = true ->
  a ++ c :: x = b ++ c :: y -> a = b /\ x = y.
Proof.
  revert b; induction a as [|h a IH]; intros [|k b]; simpl; intros Ha Hb E.
  - inversion E; auto.
  - inversion E; subst. rewrite Ascii.eqb_refl in Hb. discriminate.
  - inversion E; subst. rewrite Ascii.eqb_refl in Ha. discriminate.
  - inversion E; subst.
    apply andb_prop in Ha, Hb. destruct (IH b) as [-> ->]; tauto.
Qed.

Lemma split_first_app c a x :
  lacks c a = true -> split_first c (a ++ c :: x) = Some (a, x).
Proof.
  induction a as [|h a IH]; simpl.
  - now rewrite Ascii.eqb_refl.
  - intros H. apply andb_prop in H. destruct H as [H1 H2].
    destruct (Ascii.eqb h c); [discriminate|]. now rewrite IH.
Qed.

Lemma split_first_Some c s a x :
  split_first c s = Some (a, x) -> s = a ++ c :: x /\ lacks c a = true.
Proof.
  revert a x; induction s as [|h s IH]; simpl; intros a x; [discriminate|].
  destruct (Ascii.eqb_spec h c) as [->|Hn].
  - intros H; inversion H; subst. auto.
  - destruct (split_first c s) as [[u v]|]; [|discriminate].
    intros H; inversion H; subst. destruct (IH u x eq_refl) as [-> Hl].
    split; auto. simpl. rewrite Hl.
    destruct (Ascii.eqb_spec h c); [contradiction|reflexivity].
Qed.

End Lacks.

(** ** The remote tracking branch pattern *)

Section Branch.

(** The bool [remote_branch_shape] says what its name says. *)
Lemma remote_branch_shape_spec s :
  remote_branch_shape s = true <->
  exists a b, s = a ++ "/"%char :: b /\ a <> [] /\ b <> []
              /\ lacks "/" a = true /\ lacks "/" b = true.
Proof.
  unfold remote_branch_shape. split.
  - destruct (split_first "/" s) as [[a b]|] eqn:E; [|discriminate].
    intros H. apply andb_prop in H. destruct H as [H Hb].
    apply andb_prop in H. destruct H as [Ha Hne].
    apply split_first_Some in E. destruct E as [-> Hl].
    exists a, b. auto using nonempty_neq.
  - intros (a & b & -> & Ha & Hb & La & Lb).
    rewrite split_first_app by assumption.
    rewrite Lb, !neq_nonempty by assumption. reflexivity.
Qed.

(** The pattern accepts exactly the texts of that shape. *)
Lemma branch_lang_shape w rest :
  lang branch_re 0 w rest -> remote_branch_shape (w ++ rest) = true.
Proof.
  cbn [lang branch_re].
  intros (w0 & w1 & -> & [-> _] & wa & w2 & -> & [Ha Fa] & w3 & w4 & ->
          & [c [-> Hc]] & wb & w5 & -> & [Hb Fb] & -> & Hrest).
  apply Ascii.eqb_eq in Hc. subst c.
  apply remote_branch_shape_spec. exists wa, (wb ++ rest).
  simpl. rewrite app_nil_r, <- !app_assoc. simpl.
  repeat split; auto using Forall_lacks.
  - destruct wb; [congruence|discriminate].
  - rewrite lacks_app, (Forall_lacks _ _ Fb).
    destruct Hrest as [-> | ->]; reflexivity.
Qed.

Lemma branch_no_match s :
  remote_branch_shape s = false -> re_match branch_re s = None.
Proof.
  intros H. destruct (re_match branch_re s) as [m|] eqn:E; [|reflexivity].
  apply re_match_Some in E. destruct E as (w & rest & c & -> & -> & L).
  apply branch_lang_shape in L. congruence.
Qed.

Lemma branch_match a b :
  a <> [] -> b <> [] -> lacks "/" a = true -> lacks "/" b = true ->
  exists m, re_match branch_re (a ++ "/"%char :: b) = Some m.
Proof.
  intros Ha Hb La Lb.
  destruct (re_match branch_re (a ++ "/"%char :: b)) as [m|] eqn:E; eauto.
  exfalso. revert E.
  replace (a ++ "/"%char :: b) with ((a ++ "/"%char :: b) ++ [])
    by apply app_nil_r.
  apply re_match_None. cbn [lang branch_re].
  exists [], (a ++ "/"%char :: b).
  split; [reflexivity|split; [split; reflexivity|]].
  exists a, ("/"%char :: b).
  split; [reflexivity|split; [split; auto using lacks_Forall|]].
  exists ["/"%char], b.
  split; [reflexivity|split; [exists "/"%char; split; reflexivity|]].
  exists b, [].
  split; [now rewrite app_nil_r|split; [split; auto using lacks_Forall|auto]].
Qed.

End Branch.

(** ** The remote URL pattern *)

Section Url.

Lemma str_eqb_eq a : forall b, str_eqb a b = true <-> a = b.
Proof.
  induction a as [|x a IH]; intros [|y b]; simpl; split; try congruence.
  - intros H. apply andb_prop in H. destruct H as [H1 H2].
    apply Ascii.eqb_eq in H1. apply IH in H2. congruence.
  - intros H; inversion H; subst. rewrite Ascii.eqb_refl. now apply IH.
Qed.


Lemma hd_seq r1 r2 pos s w1 s1 c1 w2 s2 c2 :
  hd_error (ms r1 pos s) = Some (w1, s1, c1) ->
  hd_error (ms r2 (pos + length w1) s1) = Some (w2, s2, c2) ->
  hd_error (ms (Seq r1 r2) pos s) = Some (w1 ++ w2, s2, c2 ++ c1).
Proof.
  intros H1 H2. destruct (ms r1 pos s) as [|m tl] eqn:E; [discriminate|].
  simpl in H1. inversion H1; subst. eapply seq_first; eauto.
Qed.

Lemma hd_opt r pos s m :
  hd_error (ms r pos s) = Some m -> hd_error (ms (Opt r) pos s) = Some m.
Proof. cbn [ms]. destruct (ms r pos s); simpl; congruence. Qed.

Lemma hd_group n r pos s w s' c :
  hd_error (ms r pos s) = Some (w, s', c) ->
  hd_error (ms (Group n r) pos s) = Some (w, s', (n, w) :: c).
Proof.
  cbn [ms]. destruct (ms r pos s) as [|[[? ?] ?] ?]; simpl;
    intros H; inversion H; reflexivity.
Qed.

Lemma hd_plus cs pos w c s :
  w <> [] -> Forall (in_cset cs) w -> cset_mem cs c = false ->
  hd_error (ms (Plus cs) pos (w ++ c :: s)) = Some (w, c :: s, []).
Proof.
  intros Hne Hf Hc. cbn [ms].
  destruct (plus_upto cs w c s Hne Hf Hc) as [tl ->]. reflexivity.
Qed.

Lemma hd_one cs pos c s :
  cset_mem cs c = true ->
  hd_error (ms (One cs) pos (c :: s)) = Some ([c], s, []).
Proof. cbn [ms]. now intros ->. Qed.

(** [(?P<repo_name>.+).git?$] on [repo] followed by one more character
    and [git] or [gi]: the greedy [.+] first runs to the end and gives
    back one character at a time, until the suffix fits. *)
Lemma repo_step pos repo X (t : bool) :
  repo <> [] -> Forall (in_cset Dot) repo -> in_cset Dot X ->
  let suf := X :: lit (if t then "git" else "gi") in
  hd_error (ms (Seq (Group "repo_name" (Plus Dot)) suffix_re) pos (repo ++ suf))
  = Some (repo ++ suf, [], [("repo_name"%string, repo)]).
Proof.
  intros Hne Hf HX suf. cbn [ms].
  destruct (plus_app Dot repo suf Hne Hf) as [tl ->].
  unfold in_cset in HX. cbn in HX. subst suf.
  destruct t; cbn; rewrite HX; cbn; rewrite HX; cbn; now rewrite !app_nil_r.
Qed.

(** What [re.match] returns on [user@host:org/repoXgit] and
    [user@host:org/repoXgi]. *)
Lemma url_match user host org repo X (t : bool) :
  user <> [] -> lacks "@" user = true ->
  host <> [] -> lacks ":" host = true ->
  org <> [] -> lacks "/" org = true ->
  repo <> [] -> lacks newline repo = true -> X <> newline ->
  let url := scp_url user host org
                     (repo ++ X :: lit (if t then "git" else "gi")) in
  re_match url_re url
  = Some (url, [], [("repo_name", repo); ("organization", org);
                    ("hostname", host); ("user", user)]%string).
Proof.
  intros Hu Lu Hh Lh Ho Lo Hr Lr HX url. unfold re_match, url_re.
  assert (HX' : in_cset Dot X).
  { unfold in_cset. simpl. now destruct (Ascii.eqb_spec X newline). }
  subst url. unfold scp_url.
  eapply eq_trans.
  { eapply hd_seq; [reflexivity|].
    eapply hd_seq.
    { apply hd_opt. eapply hd_seq.
      - apply hd_group, hd_plus; auto using lacks_Forall.
      - now apply hd_one. }
    eapply hd_seq;
      [apply hd_group, hd_plus; auto using lacks_Forall|].
    eapply hd_seq; [now apply hd_one|].
    eapply hd_seq;
      [apply hd_group, hd_plus; auto using lacks_Forall|].
    eapply hd_seq; [now apply hd_one|].
    apply repo_step; auto using lacks_newline_Forall. }
  cbn. rewrite <- ?app_assoc. cbn. rewrite <- ?app_assoc. reflexivity.
Qed.

(** [parse_url_to_remote_info] on such a URL: the host decides. *)
Lemma parse_scp_url user host org repo X (t : bool) :
  user <> [] -> lacks "@" user = true ->
  host <> [] -> lacks ":" host = true ->
  org <> [] -> lacks "/" org = true ->
  repo <> [] -> lacks newline repo = true -> X <> newline ->
  let url := scp_url user host org
                     (repo ++ X :: lit (if t then "git" else "gi")) in
  parse_url_to_remote_info url
  = if str_eqb host (lit "github.com")
    then inr (mkRemoteInfo (lit "github") (Some org) (Some repo))
    else inl (parse_failure url).
Proof.
  intros Hu Lu Hh Lh Ho Lo Hr Lr HX url. unfold parse_url_to_remote_info.
  subst url. rewrite url_match by assumption.
  cbn. destruct (str_eqb host _); reflexivity.
Qed.

Lemma ssh_scp org repo :
  ssh_url org repo = scp_url (lit "git") (lit "github.com") org repo.
Proof. reflexivity. Qed.

Lemma parse_ssh_url org repo X (t : bool) :
  org <> [] -> lacks "/" org = true ->
  repo <> [] -> lacks newline repo = true -> X <> newline ->
  parse_url_to_remote_info
    (ssh_url org (repo ++ X :: lit (if t then "git" else "gi")))
  = inr (mkRemoteInfo (lit "github") (Some org) (Some repo)).
Proof.
  intros Ho Lo Hr Lr HX. rewrite ssh_scp.
  rewrite parse_scp_url; try assumption; try reflexivity; discriminate.
Qed.

(** Whatever the pattern accepts ends in a character, [gi], perhaps [t],
    perhaps a last line feed. *)
Lemma suffix_lang pos w rest :
  lang suffix_re pos w rest ->
  exists X tail, w ++ rest = X :: "g"%char :: "i"%char :: tail
    /\ (tail = [] \/ tail = ["t"%char] \/ tail = [newline]
        \/ tail = ["t"%char; newline]).
Proof.
  cbn [lang suffix_re].
  intros (w1 & w2 & -> & [X [-> _]] & w3 & w4 & -> & [g [-> Hg]]
          & w5 & w6 & -> & [i [-> Hi]] & w7 & w8 & -> & Ht & -> & Hrest).
  apply Ascii.eqb_eq in Hg, Hi. subst g i.
  exists X, (w7 ++ rest). split; [simpl; now rewrite app_nil_r|].
  destruct Ht as [[c [-> Hc]]| ->].
  - apply Ascii.eqb_eq in Hc. subst c. destruct Hrest as [-> | ->]; auto.
  - destruct Hrest as [-> | ->]; auto.
Qed.

(** On [git@github.com:org/repo] the pattern can only cut the text at the
    first [:] and the first [/] after it, so what it accepts at the end
    lies in [repo]. *)
Lemma ssh_url_lang org repo w rest :
  lacks "/" org = true ->
  lang url_re 0 w rest -> w ++ rest = ssh_url org repo ->
  exists r X tail, r <> [] /\ repo = r ++ X :: "g"%char :: "i"%char :: tail
    /\ (tail = [] \/ tail = ["t"%char] \/ tail = [newline]
        \/ tail = ["t"%char; newline]).
Proof.
  intros Lo L E. cbn [lang url_re] in L.
  destruct L as (w0 & w1 & -> & [-> _] & wu & w2 & -> & Hu & wh & w3 & ->
                 & [Hh Fh] & wc & w4 & -> & [c [-> Hc]] & wo & w5 & ->
                 & [Ho Fo] & ws & w6 & -> & [d [-> Hd]] & wr & w7 & ->
                 & [Hr Fr] & Ls).
  apply Ascii.eqb_eq in Hc, Hd. subst c d.
  apply suffix_lang in Ls. destruct Ls as (X & tail & Es & Ht).
  set (after_org := wr ++ X :: "g"%char :: "i"%char :: tail) in *.
  set (after_host := wo ++ "/"%char :: after_org).
  assert (E' : wu ++ wh ++ ":"%char :: after_host = ssh_url org repo).
  { rewrite <- E. subst after_host after_org. rewrite <- Es.
    repeat (progress (simpl; rewrite <- ?app_assoc)). reflexivity. }
  clear E Es. unfold ssh_url in E'.
  assert (E2 : wh ++ ":"%char :: after_host
               = lit "github.com" ++ ":"%char :: org ++ "/"%char :: repo
            \/ wh ++ ":"%char :: after_host
               = lit "git@github.com" ++ ":"%char :: org ++ "/"%char :: repo).
  { destruct Hu as [(u & a & -> & [Hne Fu] & [c [-> Hc]])| ->].
    - apply Ascii.eqb_eq in Hc. subst c. left.
      rewrite <- !app_assoc in E'.
      change (lit "git@github.com:" ++ org ++ "/"%char :: repo)
        with (lit "git" ++ "@"%char :: lit "github.com" ++ ":"%char
                :: org ++ "/"%char :: repo) in E'.
      simpl app in E' at 2.
      apply split_unique in E'; auto using Forall_lacks. tauto.
    - right. exact E'. }
  assert (E3 : wo ++ "/"%char :: after_org = org ++ "/"%char :: repo).
  { destruct E2 as [E2|E2]; apply split_unique in E2;
      auto using Forall_lacks; tauto. }
  apply split_unique in E3; auto using Forall_lacks.
  destruct E3 as [_ <-]. subst after_org. eauto 6.
Qed.

Lemma git_suffixed_app r X tail :
  tail = lit "gi" \/ tail = lit "git" -> git_suffixed (r ++ X :: tail) = true.
Proof.
  unfold git_suffixed.
  intros [-> | ->]; rewrite rev_app_distr; reflexivity.
Qed.

(** A URL [git@github.com:org/repo] that parses has a [repo] that ends in
    a character and [gi] or [git]. *)
Lemma parse_ssh_url_reject org repo :
  lacks "/" org = true -> lacks newline repo = true ->
  git_suffixed repo = false ->
  parse_url_to_remote_info (ssh_url org repo)
  = inl (parse_failure (ssh_url org repo)).
Proof.
  intros Lo Lr Hs. unfold parse_url_to_remote_info.
  destruct (re_match url_re (ssh_url org repo)) as [m|] eqn:E; [|reflexivity].
  exfalso. apply re_match_Some in E. destruct E as (w & rest & c & -> & E & L).
  destruct (ssh_url_lang org repo w rest Lo L (eq_sym E))
    as (r & X & tail & Hr & -> & Ht).
  rewrite lacks_app in Lr. apply andb_prop in Lr. destruct Lr as [_ Lr].
  destruct Ht as [-> |[-> |[-> | ->]]].
  - rewrite (git_suffixed_app r X) in Hs; [discriminate|now left].
  - rewrite (git_suffixed_app r X) in Hs; [discriminate|now right].
  - simpl in Lr. rewrite !andb_false_r in Lr. discriminate.
  - simpl in Lr. rewrite !andb_false_r in Lr. discriminate.
Qed.

End Url.

(** ** The monad *)

Section Monad.

Context {A B C : Type}.

Lemma bind_ok (m : M A) (f : A -> M B) a :
  fst m = inr a -> bind m f = (fst (f a), snd m ++ snd (f a)).
Proof.
  destruct m as [[e|x] t]; simpl; intros H; inversion H; subst.
  now destruct (f a).
Qed.

Lemma bind_err (m : M A) (f : A -> M B) e :
  fst m = inl e -> bind m f = (inl e, snd m).
Proof. destruct m as [[x|x] t]; simpl; intros H; inversion H; now subst. Qed.

Lemma bind_ret_l (a : A) (f : A -> M B) : bind (ret a) f = f a.
Proof. unfold bind, ret. now destruct (f a). Qed.

Lemma bind_ext (m : M A) (f g : A -> M B) :
  (forall a, f a = g a) -> bind m f = bind m g.
Proof. intros H. destruct m as [[e|a] t]; simpl; [|rewrite H]; reflexivity. Qed.

Lemma bind_assoc (m : M A) (f : A -> M B) (g : B -> M C) :
  bind (bind m f) g = bind m (fun a => bind (f a) g).
Proof.
  destruct m as [[e|a] t]; simpl; [reflexivity|].
  destruct (f a) as [[e|b] t1]; simpl; [reflexivity|].
  destruct (g b) as [r t2]. now rewrite app_assoc.
Qed.

End Monad.

(** ** Traces *)

Section Traces.

Variable w : World.

Lemma posts_app t1 t2 : posts (t1 ++ t2) = posts t1 ++ posts t2.
Proof. apply flat_map_app. Qed.

Lemma printed_app t1 t2 : printed (t1 ++ t2) = printed t1 ++ printed t2.
Proof. apply flat_map_app. Qed.

Lemma quiet_app t1 t2 : quiet t1 -> quiet t2 -> quiet (t1 ++ t2).
Proof.
  unfold quiet. rewrite posts_app, printed_app. intros [-> ->] [-> ->]. auto.
Qed.

Lemma in_posts rq r t : In (EPost rq r) t -> In (rq, r) (posts t).
Proof.
  intros H. apply in_flat_map. exists (EPost rq r). simpl. auto.
Qed.

Lemma quiet_no_post rq r t : quiet t -> ~ In (EPost rq r) t.
Proof. intros [H _] Hin. apply in_posts in Hin. now rewrite H in Hin. Qed.

Lemma quiet_bind {A B} (m : M A) (f : A -> M B) :
  quiet (snd m) -> (forall a, quiet (snd (f a))) -> quiet (snd (bind m f)).
Proof.
  intros Hm Hf. destruct m as [[e|a] t]; simpl in *; [assumption|].
  specialize (Hf a). destruct (f a) as [r t']. simpl in *.
  now apply quiet_app.
Qed.

Lemma quiet_nil : quiet [].
Proof. split; reflexivity. Qed.

Lemma run_checked_quiet args cwd piped :
  quiet (snd (run_checked w args cwd piped)).
Proof.
  unfold run_checked. destruct (subprocess_run w args cwd) as [|rc out];
    [split; reflexivity|].
  destruct (rc =? 0)%Z; split; reflexivity.
Qed.

Lemma execute_quiet args : quiet (snd (execute w args)).
Proof.
  unfold execute. apply quiet_bind; [apply run_checked_quiet|].
  intros out. destruct (decode_utf8 w out); apply quiet_nil.
Qed.

Lemma open_read_quiet path : quiet (snd (open_read w path)).
Proof.
  unfold open_read. destruct (read_file w path); split; reflexivity.
Qed.

Lemma get_url_for_remote_quiet n : quiet (snd (get_url_for_remote w n)).
Proof. destruct n; [apply execute_quiet|apply quiet_nil]. Qed.

Lemma get_auth_token_quiet : quiet (snd (get_auth_token w)).
Proof.
  unfold get_auth_token. apply quiet_bind; [apply open_read_quiet|].
  intros c. destruct (yaml_load w c); apply quiet_nil.
Qed.

(** Up to the POST the script neither posts nor prints. *)
Lemma prepare_request_quiet : quiet (snd (prepare_request w)).
Proof.
  unfold prepare_request.
  apply quiet_bind; [apply execute_quiet|intros top].
  apply quiet_bind; [apply run_checked_quiet|intros _].
  apply quiet_bind; [apply open_read_quiet|intros cfg].
  apply quiet_bind; [apply execute_quiet|intros s].
  destruct (re_match branch_re s) as [m|]; [|apply quiet_nil].
  apply quiet_bind; [apply get_url_for_remote_quiet|intros url].
  apply quiet_bind; [apply quiet_nil|intros info].
  apply quiet_bind; [apply execute_quiet|intros rev].
  apply quiet_bind; [apply get_auth_token_quiet|intros tok].
  apply quiet_nil.
Qed.

(** [main] is [prepare_request], the POST, then [conclude]. *)
Lemma main_split :
  main w = bind (prepare_request w)
                (fun rq => bind (post w rq) (conclude w)).
Proof.
  unfold main, prepare_request.
  rewrite bind_assoc; apply bind_ext; intros top.
  rewrite bind_assoc; apply bind_ext; intros _.
  rewrite bind_assoc; apply bind_ext; intros cfg.
  rewrite bind_assoc; apply bind_ext; intros s.
  destruct (re_match branch_re s) as [m|]; [|reflexivity].
  rewrite bind_assoc; apply bind_ext; intros url.
  rewrite bind_assoc; apply bind_ext; intros info.
  rewrite bind_assoc; apply bind_ext; intros rev.
  rewrite bind_assoc; apply bind_ext; intros tok.
  rewrite bind_ret_l. reflexivity.
Qed.

Lemma conclude_cases resp : conclude w resp = conclusion w resp.
Proof.
  unfold conclude, conclusion, response_json, raise_for_status.
  destruct (json resp) as [d|]; [|reflexivity]. rewrite bind_ret_l.
  destruct ((400 <=? status_code resp) && (status_code resp <? 600))%Z;
    [reflexivity|].
  rewrite bind_ret_l. destruct (getitem d (lit "build_url")); reflexivity.
Qed.

Lemma conclude_no_post resp : posts (snd (conclude w resp)) = [].
Proof.
  rewrite conclude_cases. unfold conclusion.
  destruct (json resp) as [d|]; [|reflexivity].
  destruct (_ && _)%bool; [reflexivity|].
  destruct (getitem d (lit "build_url")); reflexivity.
Qed.

(** A run that posts [rq] and gets [resp] is a run whose preparation
    went through, and it ends the way [conclude] ends. *)
Lemma main_posted rq resp :
  In (EPost rq (Some resp)) (snd (main w)) ->
  fst (prepare_request w) = inr rq /\ requests_post w rq = Some resp /\
  main w = (fst (conclude w resp),
            snd (prepare_request w) ++ EPost rq (Some resp)
              :: snd (conclude w resp)).
Proof.
  rewrite main_split. pose proof prepare_request_quiet as Q.
  destruct (prepare_request w) as [[e|rq0] t0]; simpl in *.
  - intros H. now apply quiet_no_post in H.
  - unfold post. destruct (requests_post w rq0) as [resp0|] eqn:E; simpl.
    + destruct (conclude w resp0) as [r t1] eqn:Ec. simpl.
      rewrite in_app_iff. intros [H|[H|H]].
      * now apply quiet_no_post in H.
      * inversion H; subst. rewrite Ec. auto.
      * apply in_posts in H. pose proof (conclude_no_post resp0) as P.
        rewrite Ec in P. simpl in P. rewrite P in H. destruct H.
    + rewrite in_app_iff. intros [H|[H|[]]].
      * now apply quiet_no_post in H.
      * discriminate.
Qed.

End Traces.

(** ** The claims about parse_url_to_remote_info *)

Section ParseClaims.

(** C1 (the code departs from it).  The [.git] suffix is meant to be
    optional, but in [.git?$] the [?] binds the [t] alone: on
    [git@github.com:acme/widgets], a URL without the suffix,
    [parse_url_to_remote_info] raises instead of returning [acme] and
    [widgets]. *)
Theorem C1_url_without_suffix_raises :
  nonempty (lit "acme") = true /\ nonempty (lit "widgets") = true /\
  lacks "/" (lit "widgets") = true /\
  parse_url_to_remote_info (ssh_url (lit "acme") (lit "widgets"))
  = inl (parse_failure (lit "git@github.com:acme/widgets")).
Proof. repeat split; vm_compute; reflexivity. Qed.

(** C2, amended.  For every URL [git@github.com:org/repo.git] with [org]
    non-empty and free of slashes and colons and [repo] non-empty and free
    of line feeds, [parse_url_to_remote_info] returns the record with
    service [github], organization [org] and repository name [repo]. *)
Theorem C2_ssh_url_parses org repo :
  nonempty org = true -> lacks "/" org = true -> lacks ":" org = true ->
  nonempty repo = true -> lacks newline repo = true ->
  parse_url_to_remote_info (ssh_url org (repo ++ lit ".git"))
  = inr (mkRemoteInfo (lit "github") (Some org) (Some repo)).
Proof.
  intros Ho Lo _ Hr Lr.
  apply (parse_ssh_url org repo "."%char true);
    auto using nonempty_neq; discriminate.
Qed.

Lemma C2_ssh_url_parses_witness :
  (nonempty (lit "acme") = true /\ lacks "/" (lit "acme") = true /\
   lacks ":" (lit "acme") = true /\ nonempty (lit "widgets") = true /\
   lacks newline (lit "widgets") = true) /\
  parse_url_to_remote_info (lit "git@github.com:acme/widgets.git")
  = inr (mkRemoteInfo (lit "github") (Some (lit "acme"))
                      (Some (lit "widgets"))).
Proof.
  split; [repeat split; reflexivity|].
  apply (C2_ssh_url_parses (lit "acme") (lit "widgets")); reflexivity.
Defined.

(** C2 as it was stated fails on a repository name with a line feed in it:
    [.+] does not cross it. *)
Lemma C2_line_feed_counterexample :
  nonempty (lit "org") = true /\ lacks "/" (lit "org") = true /\
  lacks ":" (lit "org") = true /\ nonempty broken_name = true /\
  parse_url_to_remote_info (ssh_url (lit "org") (broken_name ++ lit ".git"))
  = inl (parse_failure (ssh_url (lit "org") (broken_name ++ lit ".git"))).
Proof. repeat split; vm_compute; reflexivity. Qed.

(** C10, amended.  For [org] non-empty without a slash, [repo] non-empty
    without a line feed and every character [X] but the line feed, the
    URLs [git@github.com:org/repoXgit] and [git@github.com:org/repoXgi]
    both parse, with repository name [repo]; and
    [git@github.com:org/repo] itself is rejected when [repo] does not
    already end in a character followed by [gi] or [git]. *)
Theorem C10_any_char_before_git org repo X :
  nonempty org = true -> lacks "/" org = true ->
  nonempty repo = true -> lacks newline repo = true ->
  Ascii.eqb X newline = false ->
  parse_url_to_remote_info (ssh_url org (repo ++ X :: lit "git"))
  = inr (mkRemoteInfo (lit "github") (Some org) (Some repo)) /\
  parse_url_to_remote_info (ssh_url org (repo ++ X :: lit "gi"))
  = inr (mkRemoteInfo (lit "github") (Some org) (Some repo)) /\
  (git_suffixed repo = false ->
   parse_url_to_remote_info (ssh_url org repo)
   = inl (parse_failure (ssh_url org repo))).
Proof.
  intros Ho Lo Hr Lr HX. apply Ascii.eqb_neq in HX.
  repeat split.
  - apply (parse_ssh_url org repo X true); auto using nonempty_neq.
  - apply (parse_ssh_url org repo X false); auto using nonempty_neq.
  - now apply parse_ssh_url_reject.
Qed.

Lemma C10_any_char_before_git_witness :
  (nonempty (lit "org") = true /\ lacks "/" (lit "org") = true /\
   nonempty (lit "repo") = true /\ lacks newline (lit "repo") = true /\
   Ascii.eqb "_" newline = false) /\
  parse_url_to_remote_info (lit "git@github.com:org/repo_git")
  = inr (mkRemoteInfo (lit "github") (Some (lit "org")) (Some (lit "repo"))) /\
  parse_url_to_remote_info (lit "git@github.com:org/repo_gi")
  = inr (mkRemoteInfo (lit "github") (Some (lit "org")) (Some (lit "repo"))) /\
  (git_suffixed (lit "repo") = false ->
   parse_url_to_remote_info (lit "git@github.com:org/repo")
   = inl (parse_failure (lit "git@github.com:org/repo"))).
Proof.
  split; [repeat split; reflexivity|].
  apply (C10_any_char_before_git (lit "org") (lit "repo") "_"%char);
    reflexivity.
Defined.

(** C10 as it was stated fails when [X] is the line feed, which [.] does
    not match. *)
Lemma C10_line_feed_counterexample :
  parse_url_to_remote_info
    (ssh_url (lit "org") (lit "repo" ++ newline :: lit "git"))
  = inl (parse_failure
           (ssh_url (lit "org") (lit "repo" ++ newline :: lit "git"))) /\
  parse_url_to_remote_info
    (ssh_url (lit "org") (lit "repo" ++ newline :: lit "gi"))
  = inl (parse_failure
           (ssh_url (lit "org") (lit "repo" ++ newline :: lit "gi"))).
Proof. split; vm_compute; reflexivity. Qed.

End ParseClaims.

(** ** The claims about main *)

Section MainClaims.

Variable w : World.

Lemma script_trace : snd (script w) = snd (main w).
Proof. unfold script. now destruct (main w) as [[e|u] t]. Qed.

Lemma script_raised e : fst (main w) = inl e -> fst (script w) = 1%Z.
Proof. unfold script. destruct (main w) as [[x|u] t]; simpl; congruence. Qed.

Lemma script_returned u : fst (main w) = inr u -> fst (script w) = 0%Z.
Proof. unfold script. destruct (main w) as [[x|v] t]; simpl; congruence. Qed.

(** C3.  With the remote URL [git@github.com:acme/widgets.git] and the
    tracking branch [origin/feature-x], [main] makes one POST: to
    [https://circleci.com/api/v1.1/project/github/acme/widgets/tree/feature-x],
    with the token as user name and an empty password, and the fields
    [revision], [notify=false] and [config], the bytes of the config
    file. *)
Theorem C3_trigger_request top out cfg rev tok :
  fst (execute w cmd_toplevel) = inr top ->
  fst (run_checked w cmd_validate (Some top) false) = inr out ->
  fst (get_config_yml w top) = inr cfg ->
  fst (get_remote_tracking_branch w) = inr (lit "origin/feature-x") ->
  fst (get_url_for_remote w (Some (lit "origin")))
  = inr (lit "git@github.com:acme/widgets.git") ->
  fst (get_current_commit w) = inr rev ->
  fst (get_auth_token w) = inr tok ->
  let rq :=
    mkRequest
      (lit "https://circleci.com/api/v1.1/project/github/acme/widgets/tree/feature-x")
      (tok, [])
      [(lit "revision", FStr rev);
       (lit "notify", FStr (lit "false"));
       (lit "config", FBytes cfg)] in
  posts (snd (main w)) = [(rq, requests_post w rq)].
Proof.
  intros H1 H2 H3 H4 H5 H6 H7 rq.
  assert (P : fst (prepare_request w) = inr rq).
  { unfold prepare_request.
    rewrite (bind_ok _ _ _ H1); cbn [fst].
    rewrite (bind_ok _ _ _ H2); cbn [fst].
    rewrite (bind_ok _ _ _ H3); cbn [fst].
    rewrite (bind_ok _ _ _ H4); cbn [fst].
    change (re_match branch_re (lit "origin/feature-x"))
      with (Some (lit "origin/feature-x", @nil ascii,
                  [("remote_branch_name"%string, lit "feature-x");
                   ("remote_name"%string, lit "origin")])).
    cbv beta iota.
    change (group _ "remote_name") with (Some (lit "origin")).
    change (group _ "remote_branch_name") with (Some (lit "feature-x")).
    cbv zeta.
    rewrite (bind_ok _ _ _ H5); cbn [fst].
    change (parse_url_to_remote_info (lit "git@github.com:acme/widgets.git"))
      with (@inr exn _ (mkRemoteInfo (lit "github") (Some (lit "acme"))
                                     (Some (lit "widgets")))).
    unfold lift at 1.
    rewrite bind_ok
      with (a := mkRemoteInfo (lit "github") (Some (lit "acme"))
                              (Some (lit "widgets")))
      by reflexivity.
    cbn [fst].
    rewrite (bind_ok _ _ _ H6); cbn [fst].
    rewrite (bind_ok _ _ _ H7); cbn [fst].
    reflexivity. }
  rewrite main_split, (bind_ok _ _ _ P). cbn [snd].
  rewrite posts_app. destruct (prepare_request_quiet w) as [-> _].
  unfold post. destruct (requests_post w rq) as [resp|]; simpl.
  - pose proof (conclude_no_post w resp) as Q.
    destruct (conclude w resp) as [r t]. simpl in *. now rewrite Q.
  - reflexivity.
Qed.

(** C4.  When the validator ([circleci config validate], run in the top
    directory) exits with a status that is not 0, [main] raises at that
    call: the validator is the last thing it runs, and it makes no HTTP
    request. *)
Theorem C4_validator_failure_stops top rc out :
  fst (execute w cmd_toplevel) = inr top ->
  subprocess_run w cmd_validate (Some top) = Exited rc out ->
  rc <> 0%Z ->
  fst (main w) = inl (CalledProcessError rc) /\
  snd (main w) = snd (execute w cmd_toplevel)
                 ++ [ERun cmd_validate (Some top) false (Exited rc out)] /\
  posts (snd (main w)) = [].
Proof.
  intros H1 H2 Hrc.
  assert (E : main w
              = (inl (CalledProcessError rc),
                 snd (execute w cmd_toplevel)
                 ++ [ERun cmd_validate (Some top) false (Exited rc out)])).
  { assert (R : run_checked w cmd_validate (Some top) false
                 = (inl (CalledProcessError rc),
                    [ERun cmd_validate (Some top) false (Exited rc out)])).
    { unfold run_checked. rewrite H2.
      destruct (Z.eqb_spec rc 0); [contradiction|reflexivity]. }
    unfold main. rewrite (bind_ok _ _ _ H1).
    rewrite bind_err with (e := CalledProcessError rc) by now rewrite R.
    now rewrite R. }
  rewrite E. cbn [fst snd]. repeat split.
  rewrite posts_app. destruct (execute_quiet w cmd_toplevel) as [-> _].
  reflexivity.
Qed.

(** C5.  When the remote tracking branch is not of the shape
    [remote/branch], [main] raises its parse failure for the branch, and
    the run has made no HTTP request. *)
Theorem C5_bad_tracking_branch_raises top out cfg s :
  fst (execute w cmd_toplevel) = inr top ->
  fst (run_checked w cmd_validate (Some top) false) = inr out ->
  fst (get_config_yml w top) = inr cfg ->
  fst (get_remote_tracking_branch w) = inr s ->
  remote_branch_shape s = false ->
  fst (main w)
  = inl (Exception (lit "Cannot parse remote tracking branch " ++ s)) /\
  posts (snd (main w)) = [].
Proof.
  intros H1 H2 H3 H4 Hs.
  assert (P : fst (prepare_request w)
              = inl (Exception (lit "Cannot parse remote tracking branch "
                                ++ s))).
  { unfold prepare_request.
    rewrite (bind_ok _ _ _ H1); cbn [fst].
    rewrite (bind_ok _ _ _ H2); cbn [fst].
    rewrite (bind_ok _ _ _ H3); cbn [fst].
    rewrite (bind_ok _ _ _ H4); cbn [fst].
    now rewrite (branch_no_match s Hs). }
  rewrite main_split, (bind_err _ _ _ P). cbn [fst snd].
  split; [reflexivity|]. apply prepare_request_quiet.
Qed.

(** C6, amended.  When the POST comes back with status 401, or any
    status from 400 to 599, the script raises, ends with status 1 and
    prints nothing. *)
Theorem C6_error_status_raises rq resp :
  In (EPost rq (Some resp)) (snd (main w)) ->
  (400 <= status_code resp < 600)%Z ->
  (exists e, fst (main w) = inl e) /\
  fst (script w) = 1%Z /\
  printed (snd (script w)) = [].
Proof.
  intros Hin Hs. rewrite script_trace.
  destruct (main_posted w rq resp Hin) as (_ & _ & E).
  rewrite conclude_cases in E. unfold conclusion in E.
  assert (Hb : ((400 <=? status_code resp) && (status_code resp <? 600))%Z
               = true).
  { apply andb_true_intro. split; [apply Z.leb_le|apply Z.ltb_lt]; lia. }
  rewrite Hb in E.
  assert (exists e, fst (main w) = inl e /\
                    snd (main w) = snd (prepare_request w)
                                   ++ [EPost rq (Some resp)]) as (e & He & Ht).
  { rewrite E. destruct (json resp); cbn [fst snd]; eauto. }
  repeat split; eauto using script_raised.
  rewrite Ht, printed_app. destruct (prepare_request_quiet w) as [_ ->].
  reflexivity.
Qed.

(** C7.  When the POST comes back with a status from 200 to 299 and the
    JSON body [{"build_url": "https://circleci.com/gh/org/repo/123"}], the
    script prints the one line
    [Build triggered as https://circleci.com/gh/org/repo/123] and ends
    with status 0. *)
Theorem C7_success_prints_build_url rq resp :
  In (EPost rq (Some resp)) (snd (main w)) ->
  (200 <= status_code resp < 300)%Z ->
  json resp = Some build_url_body ->
  printed (snd (script w))
  = [lit "Build triggered as https://circleci.com/gh/org/repo/123"] /\
  fst (script w) = 0%Z.
Proof.
  intros Hin Hs Hj. rewrite script_trace.
  destruct (main_posted w rq resp Hin) as (_ & _ & E).
  rewrite conclude_cases in E. unfold conclusion in E. rewrite Hj in E.
  assert (Hb : ((400 <=? status_code resp) && (status_code resp <? 600))%Z
               = false).
  { apply andb_false_intro1. apply Z.leb_gt. lia. }
  rewrite Hb in E. cbn in E. rewrite E. cbn [fst snd]. split.
  - rewrite printed_app. destruct (prepare_request_quiet w) as [_ ->].
    reflexivity.
  - apply script_returned with (u := tt). now rewrite E.
Qed.


End MainClaims.

(** ** The claims about main, run in a world *)

Section Runs.

Ltac find_event :=
  vm_compute; repeat (first [left; reflexivity | right]).

Lemma C3_trigger_request_witness :
  posts (snd (main world_built))
  = [(acme_request, requests_post world_built acme_request)].
Proof.
  apply (C3_trigger_request world_built (lit "/home/dev/widgets") []
           (line "version: 2") (lit "4f2a9c1") (PStr (lit "s3cret")));
    vm_compute; reflexivity.
Defined.

Lemma C4_validator_failure_stops_witness :
  (1 <> 0)%Z /\
  fst (main world_invalid_config) = inl (CalledProcessError 1) /\
  snd (main world_invalid_config)
  = snd (execute world_invalid_config cmd_toplevel)
    ++ [ERun cmd_validate (Some (lit "/home/dev/widgets")) false
             (Exited 1 [])] /\
  posts (snd (main world_invalid_config)) = [].
Proof.
  split; [discriminate|].
  apply (C4_validator_failure_stops world_invalid_config
           (lit "/home/dev/widgets") 1 []);
    [vm_compute; reflexivity|vm_compute; reflexivity|discriminate].
Defined.

Lemma C5_bad_tracking_branch_raises_witness :
  remote_branch_shape (lit "master") = false /\
  fst (main world_local_upstream)
  = inl (Exception (lit "Cannot parse remote tracking branch master")) /\
  posts (snd (main world_local_upstream)) = [].
Proof.
  split; [reflexivity|].
  apply (C5_bad_tracking_branch_raises world_local_upstream
           (lit "/home/dev/widgets") [] (line "version: 2") (lit "master"));
    vm_compute; reflexivity.
Defined.

Lemma C6_error_status_raises_witness :
  (400 <= 401 < 600)%Z /\
  (exists e, fst (main world_unauthorized) = inl e) /\
  fst (script world_unauthorized) = 1%Z /\
  printed (snd (script world_unauthorized)) = [].
Proof.
  split; [lia|].
  apply (C6_error_status_raises world_unauthorized acme_request
           (mkResponse 401 (Some login_required_body)));
    [find_event|simpl; lia].
Defined.

(** C6 as it was stated fails on a status that is neither 2xx nor an
    error for [raise_for_status]: with 300 and a body that has a
    [build_url], the script prints the line and ends with status 0. *)
Lemma C6_status_300_counterexample :
  In (EPost acme_request (Some (mkResponse 300 (Some build_url_body))))
     (snd (main world_multiple_choices)) /\
  ~ (200 <= 300 < 300)%Z /\
  fst (script world_multiple_choices) = 0%Z /\
  printed (snd (script world_multiple_choices))
  = [lit "Build triggered as https://circleci.com/gh/org/repo/123"].
Proof.
  split; [find_event|]. split; [lia|]. split; vm_compute; reflexivity.
Qed.

Lemma C7_success_prints_build_url_witness :
  (200 <= 201 < 300)%Z /\
  printed (snd (script world_built))
  = [lit "Build triggered as https://circleci.com/gh/org/repo/123"] /\
  fst (script world_built) = 0%Z.
Proof.
  split; [lia|].
  apply (C7_success_prints_build_url world_built acme_request
           (mkResponse 201 (Some build_url_body)));
    [find_event|simpl; lia|reflexivity].
Defined.



End Runs.

(** * Beyond the claims *)

(** ** The groups of a match *)

Section Groups.

(** Every way the matcher finds is a word of the pattern, with the groups
    that word sets. *)
Theorem ms_sound_caps r : forall pos s w rest c,
  In (w, rest, c) (ms r pos s) -> s = w ++ rest /\ lang_caps r pos w rest c.
Proof.
  induction r as [cs|cs|r IH|r1 IH1 r2 IH2|n r IH| |];
    intros pos s w rest c; simpl.
  - destruct s as [|a s]; [intros []|].
    destruct (cset_mem cs a) eqn:E; [|intros []].
    intros [H|[]]; inversion H; subst. repeat split; eauto.
  - rewrite in_map_iff. intros [[w' r'] [H Hin]]. inversion H; subst; clear H.
    apply plus_sound in Hin. simpl. tauto.
  - rewrite in_app_iff. intros [H|[H|[]]].
    + apply IH in H. tauto.
    + inversion H; subst. auto.
  - rewrite in_flat_map. intros [[[w1 s1] c1] [H1 H2]].
    unfold seq_k in H2. rewrite in_map_iff in H2.
    destruct H2 as [[[w2 s2] c2] [H Hin]].
    inversion H; subst; clear H.
    apply IH1 in H1. apply IH2 in Hin. destruct H1 as [-> L1], Hin as [-> L2].
    split; [now rewrite app_assoc|]. exists w1, w2, c1, c2. auto.
  - rewrite in_map_iff. intros [[[w' s'] c'] [H Hin]].
    inversion H; subst; clear H. apply IH in Hin. destruct Hin as [-> L].
    eauto.
  - destruct (Nat.eqb_spec pos 0); [|intros []].
    intros [H|[]]; inversion H; subst; auto.
  - destruct s as [|a [|b s]].
    + intros [H|[]]; inversion H; subst; auto.
    + destruct (Ascii.eqb_spec a newline); [|intros []].
      intros [H|[]]; inversion H; subst; auto.
    + intros [].
Qed.

Lemma re_match_caps r s w rest c :
  re_match r s = Some (w, rest, c) -> s = w ++ rest /\ lang_caps r 0 w rest c.
Proof.
  unfold re_match. destruct (ms r 0 s) as [|m l] eqn:E; [discriminate|].
  simpl. intros H; inversion H; subst.
  apply ms_sound_caps. rewrite E. now left.
Qed.

Lemma lang_caps_lang r : forall pos w rest c,
  lang_caps r pos w rest c -> lang r pos w rest.
Proof.
  induction r as [cs|cs|r IH|r1 IH1 r2 IH2|n r IH| |];
    intros pos w rest c; simpl.
  - tauto.
  - tauto.
  - intros [H|[-> _]]; eauto.
  - intros (w1 & w2 & c1 & c2 & -> & _ & L1 & L2).
    exists w1, w2. split; [reflexivity|split; eauto].
  - intros (c' & _ & L). eauto.
  - tauto.
  - tauto.
Qed.

Lemma suffix_caps pos w rest c :
  lang_caps suffix_re pos w rest c ->
  c = [] /\ exists X tail, in_cset Dot X
    /\ w ++ rest = X :: "g"%char :: "i"%char :: tail /\ url_tail tail.
Proof.
  cbn [lang_caps suffix_re].
  intros (w1 & w2 & c1 & c2 & -> & -> & [[X [-> HX]] ->] & w3 & w4 & c3 & c4
          & -> & -> & [[g [-> Hg]] ->] & w5 & w6 & c5 & c6 & -> & ->
          & [[i [-> Hi]] ->] & w7 & w8 & c7 & c8 & -> & -> & Ht
          & [[-> Hrest] ->]).
  apply Ascii.eqb_eq in Hg, Hi. subst g i.
  assert (c7 = [] /\ (w7 = [] \/ w7 = ["t"%char])) as [-> Hw7].
  { destruct Ht as [[[a [-> Ha]] ->]|[-> ->]]; auto.
    apply Ascii.eqb_eq in Ha. subst a. auto. }
  split; [reflexivity|]. exists X, (w7 ++ rest).
  split; [assumption|]. split; [simpl; now rewrite app_nil_r|].
  unfold url_tail. destruct Hw7 as [-> | ->], Hrest as [-> | ->]; simpl; auto.
Qed.

(** What a match of the URL pattern says about the URL and its groups. *)
Theorem url_match_shape url m :
  re_match url_re url = Some m ->
  exists pre host org repo X tail,
    url = pre ++ host ++ ":"%char :: org ++ "/"%char
              :: repo ++ X :: "g"%char :: "i"%char :: tail
    /\ (pre = [] /\ group m "user" = None
        \/ exists user, nonempty user = true /\ lacks "@" user = true
                        /\ pre = user ++ ["@"%char]
                        /\ group m "user" = Some user)
    /\ nonempty host = true /\ lacks ":" host = true
    /\ nonempty org = true /\ lacks "/" org = true
    /\ nonempty repo = true /\ lacks newline repo = true
    /\ Ascii.eqb X newline = false /\ url_tail tail
    /\ group m "hostname" = Some host
    /\ group m "organization" = Some org
    /\ group m "repo_name" = Some repo.
Proof.
  destruct m as [[w rest] c]. intros H. apply re_match_caps in H.
  destruct H as [-> L]. cbn [lang_caps url_re] in L.
  destruct L as (w0 & w1 & c0 & c1 & -> & -> & [[-> _] ->]
                 & wu & w2 & cu & c2 & -> & -> & Hu
                 & wh & w3 & ch & c3 & -> & -> & (ch' & -> & [Hh Fh] & ->)
                 & wc & w4 & cc & c4 & -> & -> & [[a [-> Ha]] ->]
                 & wo & w5 & co & c5 & -> & -> & (co' & -> & [Ho Fo] & ->)
                 & ws & w6 & cs & c6 & -> & -> & [[b [-> Hb]] ->]
                 & wr & w7 & cr & c7 & -> & -> & (cr' & -> & [Hr Fr] & ->)
                 & Ls).
  apply Ascii.eqb_eq in Ha, Hb. subst a b.
  apply suffix_caps in Ls. destruct Ls as (-> & X & tail & HX & Es & Ht).
  exists wu, wh, wo, wr, X, tail.
  split.
  { rewrite <- Es. repeat (progress (simpl; rewrite <- ?app_assoc)).
    reflexivity. }
  split.
  { destruct Hu as [(u & v & c8 & c9 & -> & -> & (c' & -> & [Hne Fu] & ->)
                     & [[a [-> Ha]] ->])|[-> ->]].
    - apply Ascii.eqb_eq in Ha. subst a. right. exists u.
      repeat split; auto using neq_nonempty, Forall_lacks.
    - left. split; reflexivity. }
  repeat split; auto using neq_nonempty, Forall_lacks, Forall_lacks_newline.
  unfold in_cset in HX. simpl in HX. now destruct (Ascii.eqb X newline).
Qed.

End Groups.

(** ** The host of a URL *)

Section Host.




End Host.

(** ** parse_url_to_remote_info, beyond the claims *)

Section ParseMore.

(** The record of a URL that parses: service [github], an organization
    without a slash, a repository name without a line feed, neither
    empty. *)
Lemma parse_ok_fields url info :
  parse_url_to_remote_info url = inr info ->
  exists org repo,
    info = mkRemoteInfo (lit "github") (Some org) (Some repo)
    /\ nonempty org = true /\ lacks "/" org = true
    /\ nonempty repo = true /\ lacks newline repo = true.
Proof.
  unfold parse_url_to_remote_info.
  destruct (re_match url_re url) as [m|] eqn:E; [|discriminate].
  destruct (url_match_shape url m E)
    as (pre & host & org & repo & X & tail & _ & _ & _ & _ & Ho & Lo
        & Hr & Lr & _ & _ & Gh & Go & Gr).
  rewrite Gh, Go, Gr. destruct (negb _); [discriminate|].
  intros H; inversion H; subst. exists org, repo. auto.
Qed.

(** X1.  A URL that parses is [github.com:org/repo] with an optional [user@]
    before it and a character, [gi], an optional [t] and an optional line
    feed after it; the record holds that [org] and that [repo], and its
    service is [github]. *)
Theorem parse_ok_shape url info :
  parse_url_to_remote_info url = inr info ->
  exists pre org repo X tail,
    url = pre ++ lit "github.com" ++ ":"%char :: org ++ "/"%char
              :: repo ++ X :: "g"%char :: "i"%char :: tail
    /\ (pre = [] \/ exists user, nonempty user = true
                                 /\ lacks "@" user = true
                                 /\ pre = user ++ ["@"%char])
    /\ nonempty org = true /\ lacks "/" org = true
    /\ nonempty repo = true /\ lacks newline repo = true
    /\ Ascii.eqb X newline = false /\ url_tail tail
    /\ info = mkRemoteInfo (lit "github") (Some org) (Some repo).
Proof.
  unfold parse_url_to_remote_info.
  destruct (re_match url_re url) as [m|] eqn:E; [|discriminate].
  destruct (url_match_shape url m E)
    as (pre & host & org & repo & X & tail & -> & Hpre & Hh & Lh & Ho & Lo
        & Hr & Lr & HX & Ht & Gh & Go & Gr).
  rewrite Gh, Go, Gr. cbn [opt_str_eqb].
  destruct (str_eqb host (lit "github.com")) eqn:Eh; [|discriminate].
  apply str_eqb_eq in Eh. subst host. cbn [negb].
  intros H; inversion H; subst; clear H.
  exists pre, org, repo, X, tail. repeat split; auto.
  destruct Hpre as [[-> _]|(user & ? & ? & -> & _)]; eauto.
Qed.

Lemma parse_ok_shape_witness :
  exists pre org repo X tail,
    lit "git@github.com:acme/widgets.git"
    = pre ++ lit "github.com" ++ ":"%char :: org ++ "/"%char
          :: repo ++ X :: "g"%char :: "i"%char :: tail
    /\ (pre = [] \/ exists user, nonempty user = true
                                 /\ lacks "@" user = true
                                 /\ pre = user ++ ["@"%char])
    /\ nonempty org = true /\ lacks "/" org = true
    /\ nonempty repo = true /\ lacks newline repo = true
    /\ Ascii.eqb X newline = false /\ url_tail tail
    /\ mkRemoteInfo (lit "github") (Some (lit "acme")) (Some (lit "widgets"))
       = mkRemoteInfo (lit "github") (Some org) (Some repo).
Proof.
  apply (parse_ok_shape (lit "git@github.com:acme/widgets.git")).
  reflexivity.
Defined.

(** X2.  Parsing is stable: the record of a URL that parses is also the record
    of the plain URL [git@github.com:org/repo.git] written from it. *)
Theorem parse_round_trip url info :
  parse_url_to_remote_info url = inr info ->
  exists org repo,
    info = mkRemoteInfo (lit "github") (Some org) (Some repo)
    /\ parse_url_to_remote_info (ssh_url org (repo ++ lit ".git")) = inr info.
Proof.
  intros H. apply parse_ok_fields in H.
  destruct H as (org & repo & -> & Ho & Lo & Hr & Lr).
  exists org, repo. split; [reflexivity|].
  apply (parse_ssh_url org repo "."%char true);
    auto using nonempty_neq; discriminate.
Qed.

Lemma parse_round_trip_witness :
  exists org repo,
    mkRemoteInfo (lit "github") (Some (lit "org")) (Some (lit "wid/gets"))
    = mkRemoteInfo (lit "github") (Some org) (Some repo)
    /\ parse_url_to_remote_info (ssh_url org (repo ++ lit ".git"))
       = inr (mkRemoteInfo (lit "github") (Some (lit "org"))
                           (Some (lit "wid/gets"))).
Proof.
  apply (parse_round_trip (lit "alice@github.com:org/wid/gets_gi")).
  reflexivity.
Defined.

(** X3.  No user name is asked for, and any is accepted: what is returned
    depends on the host alone. *)
Theorem parse_any_user user host org repo :
  nonempty user = true -> lacks "@" user = true ->
  nonempty host = true -> lacks ":" host = true ->
  nonempty org = true -> lacks "/" org = true ->
  nonempty repo = true -> lacks newline repo = true ->
  parse_url_to_remote_info (scp_url user host org (repo ++ lit ".git"))
  = if str_eqb host (lit "github.com")
    then inr (mkRemoteInfo (lit "github") (Some org) (Some repo))
    else inl (parse_failure (scp_url user host org (repo ++ lit ".git"))).
Proof.
  intros. apply (parse_scp_url user host org repo "."%char true);
    auto using nonempty_neq; discriminate.
Qed.

Lemma parse_any_user_witness :
  parse_url_to_remote_info (lit "deploy@bitbucket.org:acme/widgets.git")
  = inl (parse_failure (lit "deploy@bitbucket.org:acme/widgets.git")).
Proof.
  apply (parse_any_user (lit "deploy") (lit "bitbucket.org") (lit "acme")
           (lit "widgets")); reflexivity.
Defined.

(** On a text without [@] the optional [user@] matches nothing. *)
Lemma no_user_part pos s :
  lacks "@" s = true ->
  ms (Seq (Group "user" (Plus (NotChar "@"))) (One (Char "@"))) pos s = [].
Proof.
  intros L.
  destruct (ms (Seq (Group "user" (Plus (NotChar "@"))) (One (Char "@")))
              pos s) as [|[[w rest] c] l] eqn:E; [reflexivity|].
  exfalso.
  destruct (ms_sound (Seq (Group "user" (Plus (NotChar "@")))
                          (One (Char "@"))) pos s w rest c) as [-> Lg];
    [rewrite E; now left|].
  cbn [lang] in Lg. destruct Lg as (w1 & w2 & -> & _ & a & -> & Ha).
  apply Ascii.eqb_eq in Ha. subst a.
  rewrite !lacks_app in L. simpl in L.
  rewrite andb_false_r in L. discriminate.
Qed.

Lemma hd_opt_skip r pos s :
  ms r pos s = [] -> hd_error (ms (Opt r) pos s) = Some ([], s, []).
Proof. cbn [ms]. now intros ->. Qed.

(** X4.  The part [user@] is optional: [host:org/repo.git] parses as
    [user@host:org/repo.git] does, when no [@] occurs in it. *)
Theorem parse_without_user host org repo :
  nonempty host = true -> lacks ":" host = true -> lacks "@" host = true ->
  nonempty org = true -> lacks "/" org = true -> lacks "@" org = true ->
  nonempty repo = true -> lacks newline repo = true ->
  lacks "@" repo = true ->
  let url := host ++ ":"%char :: org ++ "/"%char :: repo ++ lit ".git" in
  parse_url_to_remote_info url
  = if str_eqb host (lit "github.com")
    then inr (mkRemoteInfo (lit "github") (Some org) (Some repo))
    else inl (parse_failure url).
Proof.
  intros Hh Lh Ah Ho Lo Ao Hr Lr Ar url.
  assert (A : lacks "@" url = true).
  { subst url. rewrite lacks_app, Ah. simpl. rewrite lacks_app, Ao. simpl.
    rewrite lacks_app, Ar. reflexivity. }
  assert (M : re_match url_re url
              = Some (url, [], [("repo_name", repo); ("organization", org);
                                ("hostname", host)]%string)).
  { unfold re_match, url_re. eapply eq_trans.
    { eapply hd_seq; [reflexivity|].
      eapply hd_seq.
      { apply hd_opt_skip, no_user_part, A. }
      subst url.
      eapply hd_seq;
        [apply hd_group, hd_plus;
         auto using lacks_Forall, nonempty_neq|].
      eapply hd_seq; [now apply hd_one|].
      eapply hd_seq;
        [apply hd_group, hd_plus;
         auto using lacks_Forall, nonempty_neq|].
      eapply hd_seq; [now apply hd_one|].
      apply (repo_step _ repo "."%char true);
        auto using lacks_newline_Forall, nonempty_neq. reflexivity. }
    cbn. rewrite <- ?app_assoc. reflexivity. }
  unfold parse_url_to_remote_info. rewrite M. cbn.
  destruct (str_eqb host _); reflexivity.
Qed.

Lemma parse_without_user_witness :
  parse_url_to_remote_info (lit "github.com:acme/widgets.git")
  = inr (mkRemoteInfo (lit "github") (Some (lit "acme"))
                      (Some (lit "widgets"))).
Proof.
  apply (parse_without_user (lit "github.com") (lit "acme") (lit "widgets"));
    reflexivity.
Defined.

End ParseMore.

(** ** strip and execute *)

Section Strip.

Lemma lstrip_split s :
  exists l, s = l ++ lstrip s /\ forallb is_space l = true.
Proof.
  induction s as [|c s [l [E F]]]; simpl.
  - exists []. auto.
  - destruct (is_space c) eqn:Ec.
    + exists (c :: l). simpl. rewrite Ec, F. split; [congruence|reflexivity].
    + exists []. auto.
Qed.

Lemma lstrip_head s c t : lstrip s = c :: t -> is_space c = false.
Proof.
  induction s as [|a s IH]; simpl; [discriminate|].
  destruct (is_space a) eqn:Ea; [assumption|].
  intros H; inversion H; subst. assumption.
Qed.

Lemma rstrip_split s :
  exists r, s = rstrip s ++ r /\ forallb is_space r = true.
Proof.
  unfold rstrip. destruct (lstrip_split (rev s)) as [l [E F]].
  exists (rev l). split.
  - rewrite <- rev_app_distr, <- E. now rewrite rev_involutive.
  - rewrite forallb_forall in *. intros x Hx. apply F. now apply in_rev.
Qed.

(** [strip] takes white space away at both ends, nothing else, and
    leaves none there. *)
Theorem strip_spec s :
  exists l r, s = l ++ strip s ++ r
              /\ forallb is_space l = true /\ forallb is_space r = true
              /\ trimmed (strip s) = true.
Proof.
  unfold strip.
  destruct (lstrip_split s) as [l [El Fl]].
  destruct (rstrip_split (lstrip s)) as [r [Er Fr]].
  exists l, r. split; [now rewrite <- Er|]. split; [assumption|].
  split; [assumption|].
  unfold trimmed. apply andb_true_intro. split.
  - destruct (rstrip (lstrip s)) as [|c t] eqn:E; [reflexivity|].
    simpl in Er. apply lstrip_head in Er. now rewrite Er.
  - unfold rstrip. rewrite rev_involutive.
    destruct (lstrip (rev (lstrip s))) as [|c t] eqn:E; [reflexivity|].
    apply lstrip_head in E. now rewrite E.
Qed.

Lemma lstrip_fixed s :
  match s with [] => true | c :: _ => negb (is_space c) end = true ->
  lstrip s = s.
Proof.
  destruct s as [|c s]; simpl; [reflexivity|].
  now destruct (is_space c).
Qed.

(** On a text without white space at its ends [strip] changes nothing;
    so stripping twice is stripping once. *)
Theorem strip_fixed s : trimmed s = true -> strip s = s.
Proof.
  unfold trimmed, strip, rstrip. intros H. apply andb_prop in H.
  destruct H as [H1 H2].
  rewrite (lstrip_fixed s H1), (lstrip_fixed (rev s) H2).
  apply rev_involutive.
Qed.

Lemma strip_fixed_witness : strip (lit "a b") = lit "a b".
Proof. apply (strip_fixed (lit "a b")). reflexivity. Defined.

Corollary strip_idempotent s : strip (strip s) = strip s.
Proof.
  apply strip_fixed. destruct (strip_spec s) as (_ & _ & _ & _ & _ & H).
  exact H.
Qed.

(** A trimmed text does not end with a line feed. *)
Lemma trimmed_no_last_newline s : trimmed (s ++ [newline]) = true -> False.
Proof.
  unfold trimmed. rewrite rev_app_distr. simpl.
  intros H. apply andb_prop in H. destruct H as [_ H]. discriminate.
Qed.

Variable w : World.

(** X6.  What [execute] returns is the decoded output of a process that
    exited with status 0, without the white space around it: nothing else
    is taken away, and no white space is left at the ends. *)
Theorem execute_ok args s :
  fst (execute w args) = inr s ->
  exists out raw l r,
    subprocess_run w args None = Exited 0 out
    /\ decode_utf8 w out = Some raw
    /\ raw = l ++ s ++ r
    /\ forallb is_space l = true /\ forallb is_space r = true
    /\ trimmed s = true.
Proof.
  unfold execute, run_checked.
  destruct (subprocess_run w args None) as [|rc out]; [discriminate|].
  destruct (Z.eqb_spec rc 0) as [->|Hn]; [|discriminate].
  cbn. destruct (decode_utf8 w out) as [raw|] eqn:D; [|discriminate].
  cbn. intros H; inversion H; subst.
  destruct (strip_spec raw) as (l & r & E & Fl & Fr & T).
  exists out, raw, l, r. repeat split; assumption.
Qed.

(** What [execute] returns has no white space at its ends. *)
Lemma execute_trimmed args s :
  fst (execute w args) = inr s -> trimmed s = true.
Proof.
  unfold execute, run_checked.
  destruct (subprocess_run w args None) as [|rc out]; [discriminate|].
  destruct (rc =? 0)%Z; [|discriminate].
  cbn. destruct (decode_utf8 w out) as [raw|]; [|discriminate].
  cbn. intros H; inversion H; subst.
  destruct (strip_spec raw) as (_ & _ & _ & _ & _ & T). exact T.
Qed.

(** [execute] runs its one command, with the output captured, whatever
    comes of it; a status that is not 0 is an error even when the output
    could be decoded. *)
Theorem execute_nonzero args rc out :
  subprocess_run w args None = Exited rc out -> rc <> 0%Z ->
  execute w args
  = (inl (CalledProcessError rc), [ERun args None true (Exited rc out)]).
Proof.
  intros H Hn. unfold execute, run_checked. rewrite H.
  destruct (Z.eqb_spec rc 0); [contradiction|reflexivity].
Qed.

(** X7.  The status is looked at before the output: a status that is not
    0 makes [execute] raise [CalledProcessError] with that status,
    whatever the process wrote, and output that is not UTF-8 makes it
    raise [UnicodeDecodeError] only at status 0.  Both times the command
    has been run once, with its output captured, and nothing else has
    happened. *)
Theorem execute_error args rc out :
  subprocess_run w args None = Exited rc out ->
  (rc <> 0%Z ->
   execute w args
   = (inl (CalledProcessError rc), [ERun args None true (Exited rc out)]))
  /\ (rc = 0%Z -> decode_utf8 w out = None ->
      execute w args
      = (inl UnicodeDecodeError, [ERun args None true (Exited rc out)])).
Proof.
  intros H. split.
  - intros Hn. now apply execute_nonzero.
  - intros -> D. unfold execute, run_checked. rewrite H. cbn. now rewrite D.
Qed.

Lemma execute_trace args :
  snd (execute w args) = [ERun args None true (subprocess_run w args None)].
Proof.
  unfold execute, run_checked.
  destruct (subprocess_run w args None) as [|rc out]; [reflexivity|].
  destruct (rc =? 0)%Z; [|reflexivity].
  cbn. destruct (decode_utf8 w out); reflexivity.
Qed.

End Strip.

Lemma execute_ok_witness :
  exists out raw l r,
    subprocess_run world_built cmd_head None = Exited 0 out
    /\ decode_utf8 world_built out = Some raw
    /\ raw = l ++ lit "4f2a9c1" ++ r
    /\ forallb is_space l = true /\ forallb is_space r = true
    /\ trimmed (lit "4f2a9c1") = true.
Proof.
  apply (execute_ok world_built cmd_head (lit "4f2a9c1")). reflexivity.
Defined.

Lemma execute_error_witness :
  (1 <> 0 ->
   execute world_invalid_config cmd_validate
   = (inl (CalledProcessError 1),
      [ERun cmd_validate None true (Exited 1 [])]))%Z
  /\ (1 = 0 -> decode_utf8 world_invalid_config [] = None ->
      execute world_invalid_config cmd_validate
      = (inl UnicodeDecodeError,
         [ERun cmd_validate None true (Exited 1 [])]))%Z.
Proof.
  apply (execute_error world_invalid_config cmd_validate 1 []).
  reflexivity.
Defined.

Lemma execute_nonzero_witness :
  execute world_invalid_config cmd_validate
  = (inl (CalledProcessError 1),
     [ERun cmd_validate None true (Exited 1 [])]).
Proof.
  apply (execute_nonzero world_invalid_config cmd_validate 1 []);
    [reflexivity|discriminate].
Defined.

(** ** The remote tracking branch pattern, beyond the claims *)

Section BranchMore.

Lemma hd_plus_end cs pos w :
  w <> [] -> Forall (in_cset cs) w ->
  hd_error (ms (Plus cs) pos w) = Some (w, [], []).
Proof.
  intros Hne Hf. cbn [ms].
  destruct (plus_app cs w [] Hne Hf) as [tl E].
  rewrite app_nil_r in E. rewrite E. simpl. now rewrite app_nil_r.
Qed.

(** The first match of the pattern on [remote/branch]. *)
Lemma branch_first_match a b :
  nonempty a = true -> lacks "/" a = true ->
  nonempty b = true -> lacks "/" b = true ->
  re_match branch_re (a ++ "/"%char :: b)
  = Some (a ++ "/"%char :: b, [],
          [("remote_branch_name", b); ("remote_name", a)]%string).
Proof.
  intros Ha La Hb Lb. unfold re_match, branch_re. eapply eq_trans.
  { eapply hd_seq; [reflexivity|].
    eapply hd_seq;
      [apply hd_group, hd_plus; auto using lacks_Forall, nonempty_neq|].
    eapply hd_seq; [now apply hd_one|].
    eapply hd_seq;
      [apply hd_group, hd_plus_end; auto using lacks_Forall, nonempty_neq|].
    reflexivity. }
  cbn. rewrite <- ?app_assoc. cbn. now rewrite app_nil_r.
Qed.

(** X5.  On [remote/branch] the pattern of [main] matches the whole text and
    gives the text before the slash as [remote_name] and the text after it
    as [remote_branch_name]. *)
Theorem branch_match_groups a b :
  nonempty a = true -> lacks "/" a = true ->
  nonempty b = true -> lacks "/" b = true ->
  exists m,
    re_match branch_re (a ++ "/"%char :: b) = Some m
    /\ fst (fst m) = a ++ "/"%char :: b
    /\ group m "remote_name" = Some a
    /\ group m "remote_branch_name" = Some b.
Proof.
  intros Ha La Hb Lb. eexists. split; [now apply branch_first_match|].
  repeat split.
Qed.

Lemma branch_match_groups_witness :
  exists m,
    re_match branch_re (lit "upstream/release-2.0") = Some m
    /\ fst (fst m) = lit "upstream/release-2.0"
    /\ group m "remote_name" = Some (lit "upstream")
    /\ group m "remote_branch_name" = Some (lit "release-2.0").
Proof.
  apply (branch_match_groups (lit "upstream") (lit "release-2.0"));
    reflexivity.
Defined.

(** A match of the pattern on a trimmed text cuts it at its only
    slash. *)
Lemma branch_match_shape s m :
  re_match branch_re s = Some m -> trimmed s = true ->
  exists a b,
    s = a ++ "/"%char :: b
    /\ nonempty a = true /\ lacks "/" a = true
    /\ nonempty b = true /\ lacks "/" b = true
    /\ group m "remote_name" = Some a
    /\ group m "remote_branch_name" = Some b.
Proof.
  destruct m as [[w rest] c]. intros H T. apply re_match_caps in H.
  destruct H as [-> L]. cbn [lang_caps branch_re] in L.
  destruct L as (w0 & w1 & c0 & c1 & -> & -> & [[-> _] ->]
                 & wa & w2 & ca & c2 & -> & -> & (ca' & -> & [Ha Fa] & ->)
                 & ws & w3 & cs & c3 & -> & -> & [[x [-> Hx]] ->]
                 & wb & w4 & cb & c4 & -> & -> & (cb' & -> & [Hb Fb] & ->)
                 & [[-> Hrest] ->]).
  apply Ascii.eqb_eq in Hx. subst x.
  destruct Hrest as [-> | ->].
  - exists wa, wb. simpl. rewrite !app_nil_r.
    repeat split; auto using neq_nonempty, Forall_lacks.
  - exfalso. exact (trimmed_no_last_newline _ T).
Qed.

End BranchMore.

(** ** main, beyond the claims *)

Section MainMore.

Variable w : World.

Lemma bind_inv {A B} (m : M A) (f : A -> M B) b :
  fst (bind m f) = inr b ->
  exists a, fst m = inr a /\ fst (f a) = inr b
            /\ snd (bind m f) = snd m ++ snd (f a).
Proof.
  destruct m as [[e|a] t]; simpl; [discriminate|].
  destruct (f a) as [r t'] eqn:E. simpl. intros ->.
  exists a. rewrite E. auto.
Qed.

Lemma posts_in rq r t : In (rq, r) (posts t) -> In (EPost rq r) t.
Proof.
  unfold posts. rewrite in_flat_map. intros [ev [Hin H]].
  destruct ev; simpl in H; try contradiction.
  destruct H as [H|[]]. inversion H; subst. exact Hin.
Qed.

Lemma run_checked_ok args cwd piped out :
  fst (run_checked w args cwd piped) = inr out ->
  subprocess_run w args cwd = Exited 0 out.
Proof.
  unfold run_checked. destruct (subprocess_run w args cwd) as [|rc o];
    [discriminate|].
  destruct (Z.eqb_spec rc 0) as [->|]; [|discriminate].
  cbn. congruence.
Qed.

Lemma run_checked_trace args cwd piped :
  snd (run_checked w args cwd piped)
  = [ERun args cwd piped (subprocess_run w args cwd)].
Proof.
  unfold run_checked. destruct (subprocess_run w args cwd) as [|rc o];
    [reflexivity|].
  destruct (rc =? 0)%Z; reflexivity.
Qed.

Lemma open_read_trace path :
  snd (open_read w path) = [ERead path (read_file w path)].
Proof. unfold open_read. destruct (read_file w path); reflexivity. Qed.

Lemma open_read_ok path content :
  fst (open_read w path) = inr content -> read_file w path = Some content.
Proof.
  unfold open_read. destruct (read_file w path); [|discriminate].
  cbn. congruence.
Qed.

Lemma get_auth_token_trace :
  snd (get_auth_token w)
  = [ERead (expanduser w (lit "~/.circleci/cli.yml"))
           (read_file w (expanduser w (lit "~/.circleci/cli.yml")))].
Proof.
  unfold get_auth_token, open_read.
  destruct (read_file w _) as [c|]; [|reflexivity].
  cbn. destruct (yaml_load w c); reflexivity.
Qed.

(** X8.  The token is the value under [token] of the mapping that the YAML
    file [~/.circleci/cli.yml] holds. *)
Theorem get_auth_token_ok tok :
  fst (get_auth_token w) = inr tok ->
  exists content items,
    read_file w (expanduser w (lit "~/.circleci/cli.yml")) = Some content
    /\ yaml_load w content = Some (PDict items)
    /\ assoc (lit "token") items = Some tok.
Proof.
  unfold get_auth_token. intros H.
  apply bind_inv in H. destruct H as (content & R & H & _).
  apply open_read_ok in R.
  destruct (yaml_load w content) as [v|] eqn:Y; [|discriminate].
  unfold lift in H. cbn [fst] in H.
  destruct v; try discriminate. cbn [getitem] in H.
  destruct (assoc (lit "token") items) as [x|] eqn:A; [|discriminate].
  inversion H; subst. eauto.
Qed.

(** A mapping without [token] makes [get_auth_token] raise [KeyError],
    after the one read of the file. *)
Theorem get_auth_token_no_key content items :
  read_file w (expanduser w (lit "~/.circleci/cli.yml")) = Some content ->
  yaml_load w content = Some (PDict items) ->
  assoc (lit "token") items = None ->
  get_auth_token w
  = (inl KeyError,
     [ERead (expanduser w (lit "~/.circleci/cli.yml")) (Some content)]).
Proof.
  intros R Y A. unfold get_auth_token, open_read. rewrite R.
  cbv beta iota delta [bind emit ret]. rewrite Y.
  cbv beta iota delta [lift getitem]. now rewrite A.
Qed.

(** X9.  After the one read of [~/.circleci/cli.yml]: a file that cannot
    be read makes [get_auth_token] raise [OSError]; a file that loads as
    a mapping without [token] makes it raise [KeyError]; a file that
    loads as something that is no mapping makes it raise [TypeError]. *)
Theorem get_auth_token_error :
  let path := expanduser w (lit "~/.circleci/cli.yml") in
  (read_file w path = None ->
   get_auth_token w = (inl OSError, [ERead path None]))
  /\ (forall content items,
        read_file w path = Some content ->
        yaml_load w content = Some (PDict items) ->
        assoc (lit "token") items = None ->
        get_auth_token w = (inl KeyError, [ERead path (Some content)]))
  /\ (forall content v,
        read_file w path = Some content ->
        yaml_load w content = Some v ->
        (forall items, v <> PDict items) ->
        get_auth_token w = (inl TypeError, [ERead path (Some content)])).
Proof.
  intros path. subst path. repeat split.
  - intros R. unfold get_auth_token, open_read. now rewrite R.
  - intros content items R Y A. now apply get_auth_token_no_key with items.
  - intros content v R Y Hv. unfold get_auth_token, open_read. rewrite R.
    cbv beta iota delta [bind emit ret]. rewrite Y.
    cbv beta iota delta [lift getitem].
    destruct v; try reflexivity. now contradiction (Hv items).
Qed.

(** When the preparation goes through, every step of it went through,
    in the order of the source, and the request is made of what the steps
    returned. *)
Lemma prepare_ok rq :
  fst (prepare_request w) = inr rq ->
  exists top cfg remote branch url org repo rev tok,
    fst (execute w cmd_toplevel) = inr top
    /\ (exists out, subprocess_run w cmd_validate (Some top) = Exited 0 out)
    /\ fst (get_config_yml w top) = inr cfg
    /\ fst (get_remote_tracking_branch w) = inr (remote ++ "/"%char :: branch)
    /\ nonempty remote = true /\ lacks "/" remote = true
    /\ nonempty branch = true /\ lacks "/" branch = true
    /\ fst (get_url_for_remote w (Some remote)) = inr url
    /\ parse_url_to_remote_info url
       = inr (mkRemoteInfo (lit "github") (Some org) (Some repo))
    /\ fst (get_current_commit w) = inr rev
    /\ fst (get_auth_token w) = inr tok
    /\ rq = trigger_request org repo branch rev tok cfg
    /\ snd (prepare_request w) = prepare_trace w top remote.
Proof.
  unfold prepare_request. intros H.
  apply bind_inv in H. destruct H as (top & H1 & H & T1). rewrite T1.
  apply bind_inv in H. destruct H as (out & H2 & H & T2). rewrite T2.
  apply bind_inv in H. destruct H as (cfg & H3 & H & T3). rewrite T3.
  apply bind_inv in H. destruct H as (s & H4 & H & T4). rewrite T4.
  clear T1 T2 T3 T4.
  destruct (re_match branch_re s) as [m|] eqn:Em; [|discriminate].
  pose proof (execute_trimmed w _ _ H4) as Ts.
  destruct (branch_match_shape s m Em Ts)
    as (remote & branch & -> & Ha & La & Hb & Lb & Ga & Gb).
  rewrite Ga, Gb in *. cbv zeta in *.
  apply bind_inv in H. destruct H as (url & H5 & H & T5). rewrite T5.
  apply bind_inv in H. destruct H as (info & H6 & H & T6). rewrite T6.
  apply bind_inv in H. destruct H as (rev & H7 & H & T7). rewrite T7.
  apply bind_inv in H. destruct H as (tok & H8 & H & T8). rewrite T8.
  clear T5 T6 T7 T8.
  cbn [lift fst] in H6.
  destruct (parse_ok_fields _ _ H6) as (org & repo & -> & _).
  cbn [ret fst] in H. inversion H; subst; clear H.
  exists top, cfg, remote, branch, url, org, repo, rev, tok.
  repeat split; eauto using run_checked_ok.
  unfold get_config_yml, get_remote_tracking_branch, get_current_commit.
  unfold get_url_for_remote.
  rewrite !execute_trace, run_checked_trace, open_read_trace,
    get_auth_token_trace.
  reflexivity.
Qed.

(** What [main] posts it has prepared, and the answer is the server's. *)
Lemma main_posted_any rq r :
  In (EPost rq r) (snd (main w)) ->
  fst (prepare_request w) = inr rq /\ r = requests_post w rq.
Proof.
  rewrite main_split. pose proof (prepare_request_quiet w) as Q.
  destruct (prepare_request w) as [[e|rq0] t0]; simpl in *.
  - intros H. now apply quiet_no_post in H.
  - unfold post. destruct (requests_post w rq0) as [resp0|] eqn:E; simpl.
    + destruct (conclude w resp0) as [x t1] eqn:Ec. simpl.
      rewrite in_app_iff. intros [H|[H|H]].
      * now apply quiet_no_post in H.
      * inversion H; subst. auto.
      * apply in_posts in H. pose proof (conclude_no_post w resp0) as P.
        rewrite Ec in P. simpl in P. rewrite P in H. destruct H.
    + rewrite in_app_iff. intros [H|[H|[]]].
      * now apply quiet_no_post in H.
      * inversion H; subst. auto.
Qed.

(** X10.  A POST is made only when every step before it went through: the
    validator exited with 0, the config file was read, the tracking branch
    is [remote/branch], the URL of [remote] parsed to [org] and [repo],
    the commit and the token were found.  The request then goes to the
    project URL of [org], [repo] and [branch], with the token and an
    empty password, and carries the commit, [notify=false] and the bytes
    of the config file. *)
Theorem post_requires_preparation rq r :
  In (EPost rq r) (snd (main w)) ->
  exists top cfg remote branch url org repo rev tok,
    fst (execute w cmd_toplevel) = inr top
    /\ (exists out, subprocess_run w cmd_validate (Some top) = Exited 0 out)
    /\ fst (get_config_yml w top) = inr cfg
    /\ fst (get_remote_tracking_branch w) = inr (remote ++ "/"%char :: branch)
    /\ nonempty remote = true /\ lacks "/" remote = true
    /\ nonempty branch = true /\ lacks "/" branch = true
    /\ fst (get_url_for_remote w (Some remote)) = inr url
    /\ parse_url_to_remote_info url
       = inr (mkRemoteInfo (lit "github") (Some org) (Some repo))
    /\ fst (get_current_commit w) = inr rev
    /\ fst (get_auth_token w) = inr tok
    /\ rq = trigger_request org repo branch rev tok cfg
    /\ r = requests_post w rq.
Proof.
  intros H. apply main_posted_any in H. destruct H as [P ->].
  destruct (prepare_ok rq P)
    as (top & cfg & remote & branch & url & org & repo & rev & tok & H).
  exists top, cfg, remote, branch, url, org, repo, rev, tok. tauto.
Qed.

(** X11.  The interactions of a run that posts come in the order of the
    source: top directory, validator (run there), config file, tracking
    branch, URL of the remote, commit, token file, POST; a printed line
    can only follow. *)
Theorem main_trace_order rq r :
  In (EPost rq r) (snd (main w)) ->
  exists top remote,
    snd (main w)
    = prepare_trace w top remote
      ++ EPost rq r :: map EPrint (printed (snd (main w))).
Proof.
  intros H. apply main_posted_any in H. destruct H as [P ->].
  destruct (prepare_ok rq P)
    as (top & cfg & remote & branch & url & org & repo & rev & tok & H).
  exists top, remote.
  assert (T : snd (prepare_request w) = prepare_trace w top remote) by tauto.
  rewrite main_split, (bind_ok _ _ _ P). cbn [snd]. rewrite T.
  assert (Q : printed (prepare_trace w top remote) = []) by reflexivity.
  rewrite printed_app, Q. cbn [app]. f_equal.
  unfold post. destruct (requests_post w rq) as [resp|]; cbn; [|reflexivity].
  rewrite conclude_cases. unfold conclusion.
  destruct (json resp) as [d|]; [|reflexivity].
  destruct (_ && _)%bool; [reflexivity|].
  destruct (getitem d (lit "build_url")); reflexivity.
Qed.

End MainMore.

Section MainOutcome.

Variable w : World.

(** X12.  When every step before the POST goes through, [main] makes the one
    POST for the organization and repository of the remote URL and the
    branch after the slash of the tracking branch, whatever they are. *)
Theorem main_posts_trigger_request
  top out cfg remote branch url org repo rev tok :
  fst (execute w cmd_toplevel) = inr top ->
  fst (run_checked w cmd_validate (Some top) false) = inr out ->
  fst (get_config_yml w top) = inr cfg ->
  fst (get_remote_tracking_branch w) = inr (remote ++ "/"%char :: branch) ->
  nonempty remote = true -> lacks "/" remote = true ->
  nonempty branch = true -> lacks "/" branch = true ->
  fst (get_url_for_remote w (Some remote)) = inr url ->
  parse_url_to_remote_info url
  = inr (mkRemoteInfo (lit "github") (Some org) (Some repo)) ->
  fst (get_current_commit w) = inr rev ->
  fst (get_auth_token w) = inr tok ->
  let rq := trigger_request org repo branch rev tok cfg in
  posts (snd (main w)) = [(rq, requests_post w rq)].
Proof.
  intros H1 H2 H3 H4 Ha La Hb Lb H5 H6 H7 H8 rq.
  assert (P : fst (prepare_request w) = inr rq).
  { unfold prepare_request.
    rewrite (bind_ok _ _ _ H1); cbn [fst].
    rewrite (bind_ok _ _ _ H2); cbn [fst].
    rewrite (bind_ok _ _ _ H3); cbn [fst].
    rewrite (bind_ok _ _ _ H4); cbn [fst].
    rewrite (branch_first_match remote branch Ha La Hb Lb).
    cbv beta iota.
    change (group _ "remote_name") with (Some remote).
    change (group _ "remote_branch_name") with (Some branch).
    cbv zeta.
    rewrite (bind_ok _ _ _ H5); cbn [fst].
    rewrite H6. unfold lift at 1.
    rewrite bind_ok
      with (a := mkRemoteInfo (lit "github") (Some org) (Some repo))
      by reflexivity.
    cbn [fst].
    rewrite (bind_ok _ _ _ H7); cbn [fst].
    rewrite (bind_ok _ _ _ H8); cbn [fst].
    reflexivity. }
  rewrite main_split, (bind_ok _ _ _ P). cbn [snd].
  rewrite posts_app. destruct (prepare_request_quiet w) as [-> _].
  unfold post. destruct (requests_post w rq) as [resp|]; simpl.
  - pose proof (conclude_no_post w resp) as Q.
    destruct (conclude w resp) as [r t]. simpl in *. now rewrite Q.
  - reflexivity.
Qed.

(** X13.  When the URL of the remote does not parse, [main] raises the parse
    failure right after asking git for it: it goes on to neither the
    commit nor the token file, and posts nothing. *)
Theorem unparsable_remote_url_stops
  top out cfg remote branch url e :
  fst (execute w cmd_toplevel) = inr top ->
  fst (run_checked w cmd_validate (Some top) false) = inr out ->
  fst (get_config_yml w top) = inr cfg ->
  fst (get_remote_tracking_branch w) = inr (remote ++ "/"%char :: branch) ->
  nonempty remote = true -> lacks "/" remote = true ->
  nonempty branch = true -> lacks "/" branch = true ->
  fst (get_url_for_remote w (Some remote)) = inr url ->
  parse_url_to_remote_info url = inl e ->
  e = parse_failure url /\
  main w = (inl e, firstn 5 (prepare_trace w top remote)).
Proof.
  intros H1 H2 H3 H4 Ha La Hb Lb H5 H6.
  assert (E : e = parse_failure url).
  { unfold parse_url_to_remote_info in H6.
    destruct (re_match url_re url) as [m|];
      [destruct (negb _)|]; inversion H6; reflexivity. }
  split; [exact E|].
  unfold main.
  rewrite (bind_ok _ _ _ H1); cbn [fst snd].
  rewrite (bind_ok _ _ _ H2); cbn [fst snd].
  rewrite (bind_ok _ _ _ H3); cbn [fst snd].
  rewrite (bind_ok _ _ _ H4); cbn [fst snd].
  rewrite (branch_first_match remote branch Ha La Hb Lb).
  cbv beta iota.
  change (group _ "remote_name") with (Some remote).
  cbv zeta.
  rewrite (bind_ok _ _ _ H5); cbn [fst snd].
  rewrite H6. unfold lift at 1.
  rewrite bind_err with (e := e) by reflexivity. cbn [fst snd].
  unfold get_config_yml, get_remote_tracking_branch, get_url_for_remote.
  rewrite !execute_trace, run_checked_trace, open_read_trace.
  reflexivity.
Qed.

(** X14.  No run posts twice.  A run that ends with status 0 has made its
    one POST and has printed the one line [Build triggered as ...]; and
    nothing is ever printed by a run that has not posted. *)
Theorem script_outcome :
  length (posts (snd (script w))) <= 1
  /\ (fst (script w) = 0%Z ->
      (exists v, printed (snd (script w))
                 = [lit "Build triggered as " ++ v])
      /\ length (posts (snd (script w))) = 1)
  /\ (printed (snd (script w)) <> [] ->
      length (posts (snd (script w))) = 1).
Proof.
  rewrite script_trace.
  destruct (prepare_request_quiet w) as [Qp Qr].
  destruct (prepare_request w) as [[e|rq] t0] eqn:P; cbn [snd] in Qp, Qr.
  - assert (M : main w = (inl e, t0))
      by (rewrite main_split, P; reflexivity).
    unfold script. rewrite M. cbn [fst snd]. rewrite Qp, Qr. simpl.
    repeat split; try discriminate; auto. intros H. now contradiction H.
  - assert (M : main w
                = (fst (bind (post w rq) (conclude w)),
                   t0 ++ snd (bind (post w rq) (conclude w)))).
    { rewrite main_split, P. cbn [bind].
      now destruct (bind (post w rq) (conclude w)). }
    unfold script. rewrite M. clear M. unfold post.
    destruct (requests_post w rq) as [resp|]; cbn [bind emit raise ret].
    + rewrite conclude_cases. unfold conclusion.
      destruct (json resp) as [d|];
        [|cbn [fst snd]; rewrite posts_app, printed_app, Qp, Qr; simpl;
          repeat split; try discriminate; auto].
      destruct (_ && _)%bool;
        [cbn [fst snd]; rewrite posts_app, printed_app, Qp, Qr; simpl;
         repeat split; try discriminate; auto|].
      destruct (getitem d (lit "build_url")) as [e|v];
        [cbn [fst snd]; rewrite posts_app, printed_app, Qp, Qr; simpl;
         repeat split; try discriminate; auto|].
      cbn [fst snd]. rewrite posts_app, printed_app, Qp, Qr. simpl.
      repeat split; eauto.
    + cbn [fst snd]. rewrite posts_app, printed_app, Qp, Qr. simpl.
      repeat split; try discriminate; auto.
Qed.

(** X15.  Without a token there is no request: when [get_auth_token] raises,
    [main] posts nothing and the script ends with status 1. *)
Theorem no_token_no_post e :
  fst (get_auth_token w) = inl e ->
  posts (snd (main w)) = [] /\ fst (script w) = 1%Z.
Proof.
  intros H.
  destruct (fst (prepare_request w)) as [e'|rq] eqn:P.
  - rewrite main_split, (bind_err _ _ _ P) in *.
    split; [apply prepare_request_quiet|].
    apply script_raised with (e := e').
    now rewrite main_split, (bind_err _ _ _ P).
  - exfalso. destruct (prepare_ok w rq P)
      as (top & cfg & remote & branch & url & org & repo & rev & tok & Hp).
    assert (fst (get_auth_token w) = inr tok) by tauto. congruence.
Qed.

(** X16.  When [requests.post] gives no response, the script ends with
    [RequestException]: status 1 and nothing printed. *)
Theorem post_without_response rq :
  In (EPost rq None) (snd (main w)) ->
  fst (main w) = inl RequestException /\
  fst (script w) = 1%Z /\ printed (snd (script w)) = [].
Proof.
  intros H. rewrite script_trace.
  apply main_posted_any in H. destruct H as [P E].
  assert (M : main w = (inl RequestException,
                        snd (prepare_request w) ++ [EPost rq None])).
  { rewrite main_split, (bind_ok _ _ _ P). unfold post. rewrite <- E.
    reflexivity. }
  split; [now rewrite M|].
  split; [apply script_raised with (e := RequestException); now rewrite M|].
  rewrite M. cbn [snd]. rewrite printed_app.
  destruct (prepare_request_quiet w) as [_ ->]. reflexivity.
Qed.

(** X17.  A response that is no error and whose JSON body has no [build_url]
    (it is a mapping without that key, or not a mapping) makes the script
    raise [KeyError], or [TypeError], and print nothing. *)
Theorem response_without_build_url rq resp d e :
  In (EPost rq (Some resp)) (snd (main w)) ->
  ~ (400 <= status_code resp < 600)%Z ->
  json resp = Some d ->
  getitem d (lit "build_url") = inl e ->
  (e = KeyError \/ e = TypeError) /\
  fst (main w) = inl e /\
  fst (script w) = 1%Z /\ printed (snd (script w)) = [].
Proof.
  intros Hin Hs Hj Hg. rewrite script_trace.
  destruct (main_posted w rq resp Hin) as (_ & _ & E).
  rewrite conclude_cases in E. unfold conclusion in E.
  rewrite Hj, Hg in E.
  assert (Hb : ((400 <=? status_code resp) && (status_code resp <? 600))%Z
               = false).
  { destruct (Z.leb_spec 400 (status_code resp)); [|reflexivity].
    destruct (Z.ltb_spec (status_code resp) 600); [lia|reflexivity]. }
  rewrite Hb in E. cbn [fst snd] in E.
  split.
  { unfold getitem in Hg. destruct d; try (inversion Hg; auto; fail).
    destruct (assoc (lit "build_url") items); inversion Hg; auto. }
  split; [now rewrite E|].
  split; [apply script_raised with (e := e); now rewrite E|].
  rewrite E. cbn [snd]. rewrite printed_app.
  destruct (prepare_request_quiet w) as [_ ->]. reflexivity.
Qed.

(** X18.  A response that is no error (a 2xx, but also a 1xx or a 3xx) and
    whose body has a string of ASCII characters as [build_url] makes the
    script print [Build triggered as] and that string, and end with
    status 0. *)
Theorem response_with_build_url rq resp d s :
  In (EPost rq (Some resp)) (snd (main w)) ->
  ~ (400 <= status_code resp < 600)%Z ->
  json resp = Some d ->
  getitem d (lit "build_url") = inr (PStr s) ->
  ascii_only s = true ->
  printed (snd (script w)) = [lit "Build triggered as " ++ s] /\
  fst (script w) = 0%Z.
Proof.
  intros Hin Hs Hj Hg _. rewrite script_trace.
  destruct (main_posted w rq resp Hin) as (_ & _ & E).
  rewrite conclude_cases in E. unfold conclusion in E.
  rewrite Hj, Hg in E.
  assert (Hb : ((400 <=? status_code resp) && (status_code resp <? 600))%Z
               = false).
  { destruct (Z.leb_spec 400 (status_code resp)); [|reflexivity].
    destruct (Z.ltb_spec (status_code resp) 600); [lia|reflexivity]. }
  rewrite Hb in E. cbn [fst snd py_str] in E. split.
  - rewrite E. cbn [snd]. rewrite printed_app.
    destruct (prepare_request_quiet w) as [_ ->]. reflexivity.
  - apply script_returned with (u := tt). now rewrite E.
Qed.

End MainOutcome.

(** ** The properties beyond the claims, run in a world *)

Section MoreRuns.

Ltac locate_event :=
  vm_compute; repeat (first [left; reflexivity | right]).

Lemma get_auth_token_ok_witness :
  exists content items,
    read_file world_built (expanduser world_built (lit "~/.circleci/cli.yml"))
    = Some content
    /\ yaml_load world_built content = Some (PDict items)
    /\ assoc (lit "token") items = Some (PStr (lit "s3cret")).
Proof.
  apply (get_auth_token_ok world_built (PStr (lit "s3cret"))). reflexivity.
Defined.

Lemma get_auth_token_no_key_witness :
  get_auth_token world_no_token
  = (inl KeyError,
     [ERead (expanduser world_no_token (lit "~/.circleci/cli.yml"))
            (Some (line "token: s3cret"))]).
Proof.
  apply (get_auth_token_no_key world_no_token (line "token: s3cret")
           [(lit "host", PStr (lit "circleci.com"))]); reflexivity.
Defined.

Lemma unparsable_remote_url_stops_witness :
  parse_failure gitlab_url = parse_failure gitlab_url /\
  main world_gitlab
  = (inl (parse_failure gitlab_url),
     firstn 5 (prepare_trace world_gitlab (lit "/home/dev/widgets")
                             (lit "origin"))).
Proof.
  apply (unparsable_remote_url_stops world_gitlab (lit "/home/dev/widgets")
           [] (line "version: 2") (lit "origin") (lit "feature-x")
           gitlab_url (parse_failure gitlab_url));
    vm_compute; reflexivity.
Defined.

Lemma no_token_no_post_witness :
  posts (snd (main world_no_token)) = [] /\ fst (script world_no_token) = 1%Z.
Proof.
  apply (no_token_no_post world_no_token KeyError). reflexivity.
Defined.

Lemma post_requires_preparation_witness :
  exists top cfg remote branch url org repo rev tok,
    fst (execute world_built cmd_toplevel) = inr top
    /\ (exists out,
          subprocess_run world_built cmd_validate (Some top) = Exited 0 out)
    /\ fst (get_config_yml world_built top) = inr cfg
    /\ fst (get_remote_tracking_branch world_built)
       = inr (remote ++ "/"%char :: branch)
    /\ nonempty remote = true /\ lacks "/" remote = true
    /\ nonempty branch = true /\ lacks "/" branch = true
    /\ fst (get_url_for_remote world_built (Some remote)) = inr url
    /\ parse_url_to_remote_info url
       = inr (mkRemoteInfo (lit "github") (Some org) (Some repo))
    /\ fst (get_current_commit world_built) = inr rev
    /\ fst (get_auth_token world_built) = inr tok
    /\ acme_request = trigger_request org repo branch rev tok cfg
    /\ Some (mkResponse 201 (Some build_url_body))
       = requests_post world_built acme_request.
Proof.
  apply (post_requires_preparation world_built acme_request
           (Some (mkResponse 201 (Some build_url_body)))).
  locate_event.
Defined.

Lemma main_trace_order_witness :
  exists top remote,
    snd (main world_built)
    = prepare_trace world_built top remote
      ++ EPost acme_request (Some (mkResponse 201 (Some build_url_body)))
      :: map EPrint (printed (snd (main world_built))).
Proof.
  apply (main_trace_order world_built acme_request
           (Some (mkResponse 201 (Some build_url_body)))).
  locate_event.
Defined.

Lemma main_posts_trigger_request_witness :
  posts (snd (main world_release))
  = [(trigger_request (lit "tools") (lit "ci/runner") (lit "release-2.0")
                      (lit "4f2a9c1") (PStr (lit "s3cret"))
                      (line "version: 2"),
      Some (mkResponse 201 (Some build_url_body)))].
Proof.
  apply (main_posts_trigger_request world_release (lit "/home/dev/widgets")
           [] (line "version: 2") (lit "origin") (lit "release-2.0")
           (lit "deploy@github.com:tools/ci/runner.git")
           (lit "tools") (lit "ci/runner") (lit "4f2a9c1")
           (PStr (lit "s3cret")));
    vm_compute; reflexivity.
Defined.

Lemma post_without_response_witness :
  fst (main world_offline) = inl RequestException /\
  fst (script world_offline) = 1%Z /\ printed (snd (script world_offline)) = [].
Proof.
  apply (post_without_response world_offline acme_request). locate_event.
Defined.

Lemma response_without_build_url_witness :
  (KeyError = KeyError \/ KeyError = TypeError) /\
  fst (main world_no_build_url) = inl KeyError /\
  fst (script world_no_build_url) = 1%Z /\
  printed (snd (script world_no_build_url)) = [].
Proof.
  apply (response_without_build_url world_no_build_url acme_request
           (mkResponse 200 (Some login_required_body)) login_required_body);
    [locate_event|simpl; lia|reflexivity|reflexivity].
Defined.

Lemma response_with_build_url_witness :
  printed (snd (script world_multiple_choices))
  = [lit "Build triggered as "
     ++ lit "https://circleci.com/gh/org/repo/123"] /\
  fst (script world_multiple_choices) = 0%Z.
Proof.
  apply (response_with_build_url world_multiple_choices acme_request
           (mkResponse 300 (Some build_url_body)) build_url_body);
    [locate_event|simpl; lia|reflexivity|reflexivity|reflexivity].
Defined.

End MoreRuns.
